(** * The live conversation session of chatAI (LiveConversation component)

    A shallow embedding of the session manager: transcript merging and
    turn commits, playback scheduling, microphone sample conversion and
    the start / stop life cycle with its session token.

    Conventions.
    - A JavaScript string is a [string] whose characters stand for the
      code units below 256; [startsWith], [+] and [===] act on
      characters, as they act on code units in the source.
    - Times on the output audio context ([currentTime], [duration], the
      argument of [start]) are rationals [Q], the exact values of the
      doubles the code holds; a sum of two of them is rounded to the
      nearest double, as the code's addition is.
    - A microphone sample is the rational value of the float it holds;
      its product by 32768 is exact in double precision, so the whole
      conversion is exact arithmetic.
    - An [async] function is cut at its [await]s into one function per
      synchronous block. *)

From Stdlib Require Import ZArith QArith Qabs Qround Qpower Bool List String Ascii Lia Lqa.
From Stdlib Require PrimFloat SpecFloat FloatOps.
Import ListNotations.

Local Open Scope string_scope.

(* ================================================================== *)
(** * JavaScript primitives used by the component *)
(* ================================================================== *)

Module JS.

(** [!s] is true exactly for the empty string. *)
Definition falsy (s : string) : bool :=
  match s with
  | EmptyString => true
  | String _ _ => false
  end.

Definition truthy (s : string) : bool := negb (falsy s).

(** [s.startsWith(search)], from position 0. *)
Fixpoint startsWith (s search : string) {struct search} : bool :=
  match search with
  | EmptyString => true
  | String c search' =>
      match s with
      | EmptyString => false
      | String d s' => if Ascii.eqb c d then startsWith s' search' else false
      end
  end.

(** White space and line terminators among the characters below 256:
    TAB, LF, VT, FF, CR, SPACE and NBSP. *)
Definition isWhiteSpace (c : ascii) : bool :=
  let n := nat_of_ascii c in
  ((9 <=? n) && (n <=? 13) || (n =? 32) || (n =? 160))%nat.

Fixpoint trimStart (s : string) : string :=
  match s with
  | EmptyString => EmptyString
  | String c s' => if isWhiteSpace c then trimStart s' else s
  end.

Fixpoint trimEnd (s : string) : string :=
  match s with
  | EmptyString => EmptyString
  | String c s' =>
      let r := trimEnd s' in
      if isWhiteSpace c && falsy r then EmptyString else String c r
  end.

(** [s.trim()]. *)
Definition trim (s : string) : string := trimEnd (trimStart s).

(** [Math.max(a, b)] on finite numbers. *)
Definition Math_max (a b : Q) : Q := if Qlt_le_dec a b then b else a.

(** Integral part of a number, rounding toward zero. *)
Definition truncate (q : Q) : Z := Z.quot (Qnum q) (Zpos (Qden q)).

(** [ToInt16]: the conversion applied when a number is stored into an
    [Int16Array]: truncate, reduce modulo 2^16, read as signed. *)
Definition ToInt16 (q : Q) : Z :=
  let int16bit := ((truncate q) mod 65536)%Z in
  if (32768 <=? int16bit)%Z then (int16bit - 65536)%Z else int16bit.

(** The binade of a positive number: the [e] with [2^e <= x < 2^(e+1)]. *)
Definition binade (x : Q) : Z :=
  let e := (Z.log2 (Qnum x) - Z.log2 (Zpos (Qden x)))%Z in
  if Qle_bool (2 ^ e) x then e else (e - 1)%Z.

(** The exponent a double near [x] carries: the binade of [x], and
    -1022 for everything below the normal range. *)
Definition exponent (x : Q) : Z := Z.max (binade (Qabs x)) (-1022).

(** The spacing of the doubles around [x]: 53 bits of precision. *)
Definition ulp (x : Q) : Q := 2 ^ (exponent x - 52).

(** The integer nearest to [q], the even one of two equally near. *)
Definition roundHalfEven (q : Q) : Z :=
  let f := Qfloor q in
  match Qcompare (q - inject_Z f) (1 # 2) with
  | Lt => f
  | Gt => (f + 1)%Z
  | Eq => if Z.even f then f else (f + 1)%Z
  end.

(** [Number.MAX_VALUE]. *)
Definition MAX_VALUE : Q := inject_Z (2 ^ 53 - 1) * 2 ^ 971.

(** The double nearest to [x] (round to nearest, ties to even), for
    [x] of magnitude up to [MAX_VALUE]. Beyond that the code holds an
    infinity, which these rationals do not have: a statement about the
    value of a sum carries the bound as a hypothesis. *)
Definition nearestDouble (x : Q) : Q :=
  if Qeq_bool x 0 then 0
  else inject_Z (roundHalfEven (x / ulp x)) * ulp x.

(** [a + b] on numbers: the double nearest to the exact sum. *)
Definition add (a b : Q) : Q := nearestDouble (a + b).

(** [x] is the value of a double. *)
Definition isDouble (x : Q) : Prop := nearestDouble x == x.

End JS.

(* ================================================================== *)
(** * Transcript reconciliation *)
(* ================================================================== *)

(** [mergeTranscript(current, incoming)]. *)
Definition mergeTranscript (current incoming : string) : string :=
  if JS.falsy incoming then current
  else if JS.startsWith incoming current then incoming
  else if JS.startsWith current incoming then current
  else current ++ incoming.

(* ================================================================== *)
(** * Data model *)
(* ================================================================== *)

Inductive Speaker := user | model.

Record TranscriptionItem := {
  speaker : Speaker;
  text : string;
  timestamp : Z
}.

Record AudioContext := { sampleRate : Z }.

(** A track is [live] until [stop()] ends it. *)
Record MediaStreamTrack := { live : bool }.

Definition MediaStream := list MediaStreamTrack.

(** A streaming connection, named by its rank among the connections
    the service has handed out. *)
Record Session := { connection : nat }.

(** A buffer source of the output context: its identity (creation
    rank), the time given to [start] and the duration of its buffer. *)
Record AudioBufferSourceNode := {
  node : nat;
  when : Q;
  duration : Q
}.

(** The component's state: the five React state cells, the refs, and
    the part of the browser the component acts on ([started]: the
    sources given to [start], in call order; [halted]: the sources
    [stop()] was called on; [closed]: the connections [close()] was
    called on). *)
Record State := {
  isActive : bool;
  transcription : list TranscriptionItem;
  activeUserText : string;
  activeModelText : string;
  isModelSpeaking : bool;
  audioContextInRef : option AudioContext;
  audioContextOutRef : option AudioContext;
  sessionRef : option Session;
  transcriptionRef : list TranscriptionItem;
  sourcesRef : list AudioBufferSourceNode;
  nextStartTimeRef : Q;
  streamRef : option MediaStream;
  currentInputText : string;
  currentOutputText : string;
  lastCommittedInputRef : string;
  lastCommittedOutputRef : string;
  sessionTokenRef : Z;
  started : list AudioBufferSourceNode;
  halted : list nat;
  closed : list Session
}.

(** The state at mount: [useState] and [useRef] initial values. *)
Definition initial : State := {|
  isActive := false;
  transcription := [];
  activeUserText := "";
  activeModelText := "";
  isModelSpeaking := false;
  audioContextInRef := None;
  audioContextOutRef := None;
  sessionRef := None;
  transcriptionRef := [];
  sourcesRef := [];
  nextStartTimeRef := 0;
  streamRef := None;
  currentInputText := "";
  currentOutputText := "";
  lastCommittedInputRef := "";
  lastCommittedOutputRef := "";
  sessionTokenRef := 0;
  started := [];
  halted := [];
  closed := []
|}.

(** What a callback reads from its surroundings: [Date.now()] where
    the user's item is built, [Date.now()] again where the model's item
    is built, and the output context's [currentTime]. *)
Record Env := {
  dateNow : Z;
  dateNowAgain : Z;
  currentTime : Q
}.

(** What [decode] and [decodeAudioData] make of the data of a part: a
    buffer of some duration, or an exception. *)
Inductive Decoded :=
| Buffer (d : Q)
| Thrown.

(** A part of a model turn. [inlineData] is present when the part
    carries audio data; its value is what decoding that data gives. *)
Record Part := { inlineData : option Decoded }.

Record ServerContent := {
  inputTranscription : option string;
  outputTranscription : option string;
  turnComplete : bool;
  modelTurn : option (list Part);
  interrupted : bool
}.

Record LiveServerMessage := { serverContent : option ServerContent }.

(* ================================================================== *)
(** * Session teardown *)
(* ================================================================== *)

Definition stopTrack (t : MediaStreamTrack) : MediaStreamTrack :=
  {| live := false |}.

(** [stopSession()]. *)
Definition stopSession (s : State) : State := {|
  isActive := false;
  transcription := transcription s;
  activeUserText := activeUserText s;
  activeModelText := activeModelText s;
  isModelSpeaking := isModelSpeaking s;
  audioContextInRef := audioContextInRef s;
  audioContextOutRef := audioContextOutRef s;
  sessionRef := None;
  transcriptionRef := transcriptionRef s;
  sourcesRef := [];
  nextStartTimeRef := nextStartTimeRef s;
  streamRef := option_map (map stopTrack) (streamRef s);
  currentInputText := currentInputText s;
  currentOutputText := currentOutputText s;
  lastCommittedInputRef := lastCommittedInputRef s;
  lastCommittedOutputRef := lastCommittedOutputRef s;
  sessionTokenRef := sessionTokenRef s + 1;
  started := started s;
  halted := halted s ++ map node (sourcesRef s);
  closed := match sessionRef s with
            | Some session => closed s ++ [session]
            | None => closed s
            end
|}.

(* ================================================================== *)
(** * Session start

    [startSession] has two [await]s, hence three synchronous blocks. *)
(* ================================================================== *)

(** Up to the first suspension: the token is taken and
    [initializeAudio] builds both contexts, then waits for the
    microphone. Returns the captured [token]. *)
Definition startSession_begin (s : State) : Z * State :=
  let token := (sessionTokenRef s + 1)%Z in
  (token, {|
    isActive := isActive s;
    transcription := transcription s;
    activeUserText := activeUserText s;
    activeModelText := activeModelText s;
    isModelSpeaking := isModelSpeaking s;
    audioContextInRef := Some {| sampleRate := 16000 |};
    audioContextOutRef := Some {| sampleRate := 24000 |};
    sessionRef := sessionRef s;
    transcriptionRef := transcriptionRef s;
    sourcesRef := sourcesRef s;
    nextStartTimeRef := nextStartTimeRef s;
    streamRef := streamRef s;
    currentInputText := currentInputText s;
    currentOutputText := currentOutputText s;
    lastCommittedInputRef := lastCommittedInputRef s;
    lastCommittedOutputRef := lastCommittedOutputRef s;
    sessionTokenRef := token;
    started := started s;
    halted := halted s;
    closed := closed s
  |}).

(** [getUserMedia] resolves with [stream]: [initializeAudio] stores it
    and returns; [startSession] compares the token and either returns
    or marks the session active and calls [connect]. The boolean tells
    whether [connect] was called. *)
Definition startSession_acquired (token : Z) (stream : MediaStream) (s : State)
  : bool * State :=
  let proceed := (token =? sessionTokenRef s)%Z in
  (proceed, {|
    isActive := if proceed then true else isActive s;
    transcription := transcription s;
    activeUserText := activeUserText s;
    activeModelText := activeModelText s;
    isModelSpeaking := isModelSpeaking s;
    audioContextInRef := audioContextInRef s;
    audioContextOutRef := audioContextOutRef s;
    sessionRef := sessionRef s;
    transcriptionRef := transcriptionRef s;
    sourcesRef := sourcesRef s;
    nextStartTimeRef := nextStartTimeRef s;
    streamRef := Some stream;
    currentInputText := currentInputText s;
    currentOutputText := currentOutputText s;
    lastCommittedInputRef := lastCommittedInputRef s;
    lastCommittedOutputRef := lastCommittedOutputRef s;
    sessionTokenRef := sessionTokenRef s;
    started := started s;
    halted := halted s;
    closed := closed s
  |}).

(** The handshake resolves with [session]: it is kept when the token
    still matches and closed otherwise. *)
Definition startSession_connected (token : Z) (session : Session) (s : State)
  : State :=
  let current := (token =? sessionTokenRef s)%Z in
  {|
    isActive := isActive s;
    transcription := transcription s;
    activeUserText := activeUserText s;
    activeModelText := activeModelText s;
    isModelSpeaking := isModelSpeaking s;
    audioContextInRef := audioContextInRef s;
    audioContextOutRef := audioContextOutRef s;
    sessionRef := if current then Some session else sessionRef s;
    transcriptionRef := transcriptionRef s;
    sourcesRef := sourcesRef s;
    nextStartTimeRef := nextStartTimeRef s;
    streamRef := streamRef s;
    currentInputText := currentInputText s;
    currentOutputText := currentOutputText s;
    lastCommittedInputRef := lastCommittedInputRef s;
    lastCommittedOutputRef := lastCommittedOutputRef s;
    sessionTokenRef := sessionTokenRef s;
    started := started s;
    halted := halted s;
    closed := if current then closed s else closed s ++ [session]
  |}.

(* ================================================================== *)
(** * Inbound messages

    The blocks of [onmessage], in source order. The callback is created
    inside [startSession], so [token] is in its scope. *)
(* ================================================================== *)

(** [message.serverContent.inputTranscription]: merge into the user's
    pending text and show it. *)
Definition onInputTranscription (incoming : string) (s : State) : State :=
  let merged := mergeTranscript (currentInputText s) incoming in
  {|
    isActive := isActive s;
    transcription := transcription s;
    activeUserText := merged;
    activeModelText := activeModelText s;
    isModelSpeaking := isModelSpeaking s;
    audioContextInRef := audioContextInRef s;
    audioContextOutRef := audioContextOutRef s;
    sessionRef := sessionRef s;
    transcriptionRef := transcriptionRef s;
    sourcesRef := sourcesRef s;
    nextStartTimeRef := nextStartTimeRef s;
    streamRef := streamRef s;
    currentInputText := merged;
    currentOutputText := currentOutputText s;
    lastCommittedInputRef := lastCommittedInputRef s;
    lastCommittedOutputRef := lastCommittedOutputRef s;
    sessionTokenRef := sessionTokenRef s;
    started := started s;
    halted := halted s;
    closed := closed s
  |}.

(** [message.serverContent.outputTranscription]: the same for the
    model's pending text. *)
Definition onOutputTranscription (incoming : string) (s : State) : State :=
  let merged := mergeTranscript (currentOutputText s) incoming in
  {|
    isActive := isActive s;
    transcription := transcription s;
    activeUserText := activeUserText s;
    activeModelText := merged;
    isModelSpeaking := isModelSpeaking s;
    audioContextInRef := audioContextInRef s;
    audioContextOutRef := audioContextOutRef s;
    sessionRef := sessionRef s;
    transcriptionRef := transcriptionRef s;
    sourcesRef := sourcesRef s;
    nextStartTimeRef := nextStartTimeRef s;
    streamRef := streamRef s;
    currentInputText := currentInputText s;
    currentOutputText := merged;
    lastCommittedInputRef := lastCommittedInputRef s;
    lastCommittedOutputRef := lastCommittedOutputRef s;
    sessionTokenRef := sessionTokenRef s;
    started := started s;
    halted := halted s;
    closed := closed s
  |}.

(** The [isDuplicateTurn] test on the two trimmed texts. *)
Definition isDuplicateTurn (userFinal modelFinal : string) (s : State) : bool :=
  String.eqb userFinal (lastCommittedInputRef s)
  && String.eqb modelFinal (lastCommittedOutputRef s).

(** The [commits] array. *)
Definition commits (env : Env) (duplicate : bool) (userFinal modelFinal : string)
  : list TranscriptionItem :=
  if duplicate then []
  else
    (if JS.truthy userFinal
     then [{| speaker := user; text := userFinal; timestamp := dateNow env |}]
     else [])
    ++
    (if JS.truthy modelFinal
     then [{| speaker := model; text := modelFinal;
              timestamp := dateNowAgain env |}]
     else []).

(** [message.serverContent.turnComplete]. *)
Definition onTurnComplete (env : Env) (s : State) : State :=
  let userFinal := JS.trim (currentInputText s) in
  let modelFinal := JS.trim (currentOutputText s) in
  let duplicate := isDuplicateTurn userFinal modelFinal s in
  let cs := commits env duplicate userFinal modelFinal in
  let pushed := (0 <? List.length cs)%nat in
  {|
    isActive := isActive s;
    transcription := if pushed then transcription s ++ cs else transcription s;
    activeUserText := "";
    activeModelText := "";
    isModelSpeaking := false;
    audioContextInRef := audioContextInRef s;
    audioContextOutRef := audioContextOutRef s;
    sessionRef := sessionRef s;
    transcriptionRef :=
      if pushed then transcriptionRef s ++ cs else transcriptionRef s;
    sourcesRef := sourcesRef s;
    nextStartTimeRef := nextStartTimeRef s;
    streamRef := streamRef s;
    currentInputText := "";
    currentOutputText := "";
    lastCommittedInputRef :=
      if duplicate then lastCommittedInputRef s else userFinal;
    lastCommittedOutputRef :=
      if duplicate then lastCommittedOutputRef s else modelFinal;
    sessionTokenRef := sessionTokenRef s;
    started := started s;
    halted := halted s;
    closed := closed s
  |}.

(** An audio part, up to the [await] of the decoder: the speaking flag
    is raised and the next start time is brought up to the clock. *)
Definition enqueue_begin (env : Env) (s : State) : State := {|
  isActive := isActive s;
  transcription := transcription s;
  activeUserText := activeUserText s;
  activeModelText := activeModelText s;
  isModelSpeaking := true;
  audioContextInRef := audioContextInRef s;
  audioContextOutRef := audioContextOutRef s;
  sessionRef := sessionRef s;
  transcriptionRef := transcriptionRef s;
  sourcesRef := sourcesRef s;
  nextStartTimeRef := JS.Math_max (nextStartTimeRef s) (currentTime env);
  streamRef := streamRef s;
  currentInputText := currentInputText s;
  currentOutputText := currentOutputText s;
  lastCommittedInputRef := lastCommittedInputRef s;
  lastCommittedOutputRef := lastCommittedOutputRef s;
  sessionTokenRef := sessionTokenRef s;
  started := started s;
  halted := halted s;
  closed := closed s
|}.

(** The source created for a decoded buffer of duration [d]. *)
Definition createBufferSource (d : Q) (s : State) : AudioBufferSourceNode :=
  {| node := List.length (started s); when := nextStartTimeRef s; duration := d |}.

(** An audio part, once the decoder has returned a buffer of duration
    [d]: the source is started at the next start time, to which [d] is
    then added, and the source joins the live set. *)
Definition enqueue_finish (d : Q) (s : State) : State :=
  let source := createBufferSource d s in
  {|
    isActive := isActive s;
    transcription := transcription s;
    activeUserText := activeUserText s;
    activeModelText := activeModelText s;
    isModelSpeaking := isModelSpeaking s;
    audioContextInRef := audioContextInRef s;
    audioContextOutRef := audioContextOutRef s;
    sessionRef := sessionRef s;
    transcriptionRef := transcriptionRef s;
    sourcesRef := sourcesRef s ++ [source];
    nextStartTimeRef := JS.add (nextStartTimeRef s) d;
    streamRef := streamRef s;
    currentInputText := currentInputText s;
    currentOutputText := currentOutputText s;
    lastCommittedInputRef := lastCommittedInputRef s;
    lastCommittedOutputRef := lastCommittedOutputRef s;
    sessionTokenRef := sessionTokenRef s;
    started := started s ++ [source];
    halted := halted s;
    closed := closed s
  |}.

(** One audio part handled without anything running in between. *)
Definition enqueue (env : Env) (d : Q) (s : State) : State :=
  enqueue_finish d (enqueue_begin env s).

(** The ['ended'] listener of source [n]. *)
Definition onended (n : nat) (s : State) : State := {|
  isActive := isActive s;
  transcription := transcription s;
  activeUserText := activeUserText s;
  activeModelText := activeModelText s;
  isModelSpeaking := isModelSpeaking s;
  audioContextInRef := audioContextInRef s;
  audioContextOutRef := audioContextOutRef s;
  sessionRef := sessionRef s;
  transcriptionRef := transcriptionRef s;
  sourcesRef := filter (fun src => negb (Nat.eqb (node src) n)) (sourcesRef s);
  nextStartTimeRef := nextStartTimeRef s;
  streamRef := streamRef s;
  currentInputText := currentInputText s;
  currentOutputText := currentOutputText s;
  lastCommittedInputRef := lastCommittedInputRef s;
  lastCommittedOutputRef := lastCommittedOutputRef s;
  sessionTokenRef := sessionTokenRef s;
  started := started s;
  halted := halted s;
  closed := closed s
|}.

(** [message.serverContent.interrupted]. *)
Definition onInterrupted (s : State) : State := {|
  isActive := isActive s;
  transcription := transcription s;
  activeUserText := activeUserText s;
  activeModelText := "";
  isModelSpeaking := false;
  audioContextInRef := audioContextInRef s;
  audioContextOutRef := audioContextOutRef s;
  sessionRef := sessionRef s;
  transcriptionRef := transcriptionRef s;
  sourcesRef := [];
  nextStartTimeRef := 0;
  streamRef := streamRef s;
  currentInputText := currentInputText s;
  currentOutputText := "";
  lastCommittedInputRef := lastCommittedInputRef s;
  lastCommittedOutputRef := lastCommittedOutputRef s;
  sessionTokenRef := sessionTokenRef s;
  started := started s;
  halted := halted s ++ map node (sourcesRef s);
  closed := closed s
|}.

(** How a block that can throw ends, and the state it leaves. *)
Inductive Outcome :=
| Completed (s : State)
| Aborted (s : State).

(** The loop over [modelTurn.parts]. Nothing catches an exception of
    the decoder: it ends the loop, and [onmessage] with it, after the
    part's first two statements. The parts of one message meet the one
    clock reading of [env]; parts that meet the clock at different
    readings are the chunks of [enqueueAll] and the [DecodeBegin]s of a
    run. *)
Fixpoint onParts (env : Env) (parts : list Part) (s : State) : Outcome :=
  match parts with
  | [] => Completed s
  | part :: rest =>
      match inlineData part with
      | Some (Buffer d) => onParts env rest (enqueue env d s)
      | Some Thrown => Aborted (enqueue_begin env s)
      | None => onParts env rest s
      end
  end.

Definition whenPresent {A} (field : option A) (handler : A -> State -> State)
  (s : State) : State :=
  match field with
  | Some a => handler a s
  | None => s
  end.

Definition whenSet (flag : bool) (handler : State -> State) (s : State) : State :=
  if flag then handler s else s.

(** [onmessage], as registered by the [startSession] call that took
    [token]. *)
Definition onmessage (token : Z) (env : Env) (message : LiveServerMessage)
  (s : State) : State :=
  match serverContent message with
  | None => s
  | Some content =>
      let s1 := whenPresent (inputTranscription content) onInputTranscription s in
      let s2 := whenPresent (outputTranscription content) onOutputTranscription s1 in
      let s3 := whenSet (turnComplete content) (onTurnComplete env) s2 in
      match modelTurn content with
      | Some parts =>
          match onParts env parts s3 with
          | Completed s4 => whenSet (interrupted content) onInterrupted s4
          | Aborted s4 => s4
          end
      | None => whenSet (interrupted content) onInterrupted s3
      end
  end.

(** [onclose]. *)
Definition onclose (s : State) : State := {|
  isActive := false;
  transcription := transcription s;
  activeUserText := activeUserText s;
  activeModelText := activeModelText s;
  isModelSpeaking := isModelSpeaking s;
  audioContextInRef := audioContextInRef s;
  audioContextOutRef := audioContextOutRef s;
  sessionRef := sessionRef s;
  transcriptionRef := transcriptionRef s;
  sourcesRef := sourcesRef s;
  nextStartTimeRef := nextStartTimeRef s;
  streamRef := streamRef s;
  currentInputText := currentInputText s;
  currentOutputText := currentOutputText s;
  lastCommittedInputRef := lastCommittedInputRef s;
  lastCommittedOutputRef := lastCommittedOutputRef s;
  sessionTokenRef := sessionTokenRef s;
  started := started s;
  halted := halted s;
  closed := closed s
|}.

(* ================================================================== *)
(** * Microphone capture *)
(* ================================================================== *)

(** The element stored by [int16[i] = inputData[i] * 32768]. *)
Definition pcm16 (sample : Q) : Z := JS.ToInt16 (sample * 32768).

(** The [Int16Array] filled by [onaudioprocess] from one input block. *)
Definition onaudioprocess (inputData : list Q) : list Z := map pcm16 inputData.

(* ================================================================== *)
(** * Messages and runs used in the statements *)
(* ================================================================== *)

Definition partialUser (t : string) : LiveServerMessage :=
  {| serverContent := Some {|
       inputTranscription := Some t;
       outputTranscription := None;
       turnComplete := false;
       modelTurn := None;
       interrupted := false |} |}.

Definition partialModel (t : string) : LiveServerMessage :=
  {| serverContent := Some {|
       inputTranscription := None;
       outputTranscription := Some t;
       turnComplete := false;
       modelTurn := None;
       interrupted := false |} |}.

Definition turnDone : LiveServerMessage :=
  {| serverContent := Some {|
       inputTranscription := None;
       outputTranscription := None;
       turnComplete := true;
       modelTurn := None;
       interrupted := false |} |}.

Definition audioChunk (d : Q) : LiveServerMessage :=
  {| serverContent := Some {|
       inputTranscription := None;
       outputTranscription := None;
       turnComplete := false;
       modelTurn := Some [{| inlineData := Some (Buffer d) |}];
       interrupted := false |} |}.

Definition interruption : LiveServerMessage :=
  {| serverContent := Some {|
       inputTranscription := None;
       outputTranscription := None;
       turnComplete := false;
       modelTurn := None;
       interrupted := true |} |}.

(** A whole turn in one message: both transcriptions and the
    turn-complete flag. *)
Definition wholeTurn (u a : string) : LiveServerMessage :=
  {| serverContent := Some {|
       inputTranscription := Some u;
       outputTranscription := Some a;
       turnComplete := true;
       modelTurn := None;
       interrupted := false |} |}.

(** Chunks handled one after the other, each with the clock reading
    taken when its turn comes and the duration of its buffer. *)
Fixpoint enqueueAll (chunks : list (Q * Q)) (s : State) : State :=
  match chunks with
  | [] => s
  | (now, d) :: rest =>
      enqueueAll rest (enqueue {| dateNow := 0; dateNowAgain := 0; currentTime := now |} d s)
  end.

(** The start times of a back-to-back schedule that begins at [s1]:
    each is the one before plus the duration before, as the code adds
    them. *)
Fixpoint backToBack (s1 : Q) (durations : list Q) : list Q :=
  match durations with
  | [] => []
  | d :: rest => s1 :: backToBack (JS.add s1 d) rest
  end.

(** Arrivals keep ahead of playback: each chunk is handled while the
    clock has not passed the end of the schedule so far, [next]. *)
Fixpoint keepsAhead (next : Q) (chunks : list (Q * Q)) : Prop :=
  match chunks with
  | [] => True
  | (now, d) :: rest => now <= next /\ keepsAhead (JS.add next d) rest
  end.

(** The sums of a back-to-back schedule stay within the finite
    doubles. *)
Fixpoint finiteSums (s1 : Q) (durations : list Q) : Prop :=
  match durations with
  | [] => True
  | d :: rest => s1 + d <= JS.MAX_VALUE /\ finiteSums (JS.add s1 d) rest
  end.

(** The sums of a back-to-back schedule are doubles themselves, so
    that adding rounds nothing off. *)
Fixpoint exactSums (s1 : Q) (durations : list Q) : Prop :=
  match durations with
  | [] => True
  | d :: rest => JS.isDouble (s1 + d) /\ exactSums (JS.add s1 d) rest
  end.

(** No two of the scheduled sources sound at the same time: each ends
    before every later one starts. *)
Fixpoint noOverlap (sources : list AudioBufferSourceNode) : Prop :=
  match sources with
  | [] => True
  | src :: rest =>
      Forall (fun later => when src + duration src <= when later) rest
      /\ noOverlap rest
  end.

(** No two of the scheduled sources overlap by more than the rounding
    of one addition: each later one starts no earlier than half a unit
    in the last place before the end of an earlier one. *)
Fixpoint overlapWithinRounding (sources : list AudioBufferSourceNode) : Prop :=
  match sources with
  | [] => True
  | src :: rest =>
      Forall (fun later =>
                when src + duration src
                - JS.ulp (when src + duration src) / 2 <= when later) rest
      /\ overlapWithinRounding rest
  end.

(** The exact value of a finite double of the kernel. *)
Definition doubleValue (f : PrimFloat.float) : option Q :=
  match FloatOps.Prim2SF f with
  | SpecFloat.S754_zero _ => Some 0
  | SpecFloat.S754_finite sign m e =>
      Some (inject_Z (if sign then Z.neg m else Z.pos m) * 2 ^ e)
  | _ => None
  end.

(** [JS.add] gives what the kernel's binary64 addition gives. *)
Definition addsAsDoubles (a b : PrimFloat.float) : bool :=
  match doubleValue a, doubleValue b, doubleValue (PrimFloat.add a b) with
  | Some x, Some y, Some z => Qeq_bool (JS.add x y) z
  | _, _, _ => false
  end.

(** The double [m * 2 ^ e] of the kernel, for [m] of at most 53 bits. *)
Definition double (m e : Z) : PrimFloat.float :=
  FloatOps.SF2Prim
    match m with
    | Z0 => SpecFloat.S754_zero false
    | Zpos p => SpecFloat.S754_finite false p e
    | Zneg p => SpecFloat.S754_finite true p e
    end.

(** Pairs of doubles on which [JS.add] is compared with the kernel's
    addition: 0.1 + 0.7 and 0.1 + 0.2, which round; ties at 2 ^ 53,
    to the even neighbour below and above; a sum past a tie; sums of
    mixed sign, one cancelling; subnormal sums; the largest double
    plus one; 2.8 and 0.065. *)
Definition additions : list (PrimFloat.float * PrimFloat.float) :=
  [ (double 3602879701896397 (-55), double 3152519739159347 (-52));
    (double 3602879701896397 (-55), double 3602879701896397 (-54));
    (double 4503599627370496 1, double 4503599627370496 (-52));
    (double 4503599627370497 1, double 4503599627370496 (-52));
    (double 4503599627370496 1, double 6755399441055744 (-52));
    (double (-3602879701896397) (-55), double 3152519739159347 (-52));
    (double 3602879701896397 (-55), double (-3602879701896397) (-55));
    (double 1 (-1074), double 3 (-1074));
    (double 4503599627370497 (-1074), double 4503599627370497 (-1074));
    (double 9007199254740991 971, double 1 0);
    (double 6369051672525773 (-51), double 4728779608739021 (-56)) ].

(** [p] is a leading substring of [s]. *)
Definition leading (p s : string) : Prop := exists rest, s = p ++ rest.

(** The sources started between two states of one run. *)
Definition newSources (before after : State) : list AudioBufferSourceNode :=
  skipn (List.length (started before)) (started after).

(** The state [s] with [e] as the current token. *)
Definition withToken (e : Z) (s : State) : State := {|
  isActive := isActive s;
  transcription := transcription s;
  activeUserText := activeUserText s;
  activeModelText := activeModelText s;
  isModelSpeaking := isModelSpeaking s;
  audioContextInRef := audioContextInRef s;
  audioContextOutRef := audioContextOutRef s;
  sessionRef := sessionRef s;
  transcriptionRef := transcriptionRef s;
  sourcesRef := sourcesRef s;
  nextStartTimeRef := nextStartTimeRef s;
  streamRef := streamRef s;
  currentInputText := currentInputText s;
  currentOutputText := currentOutputText s;
  lastCommittedInputRef := lastCommittedInputRef s;
  lastCommittedOutputRef := lastCommittedOutputRef s;
  sessionTokenRef := e;
  started := started s;
  halted := halted s;
  closed := closed s
|}.

(** A session that ran and was stopped: started from the mount state
    with one live microphone track, connected, then stopped. The
    callbacks of its connection hold token 1; the current token is 2. *)
Definition stoppedSession : State :=
  let '(token, s1) := startSession_begin initial in
  let '(_, s2) := startSession_acquired token [{| live := true |}] s1 in
  let s3 := startSession_connected token {| connection := 0 |} s2 in
  stopSession s3.

(** A start overtaken by a stop: [stopSession] runs while the
    microphone is still being acquired, then the acquisition completes
    with one live track. *)
Definition overtakenStart : bool * State :=
  let '(token, s1) := startSession_begin initial in
  let s2 := stopSession s1 in
  startSession_acquired token [{| live := true |}] s2.

(* ================================================================== *)
(** * Runs of the component

    What can happen to the component, one synchronous block at a time.
    [Message] is [onmessage] run through without suspension. An audio
    part suspends in the decoder, so the real run of a message with
    audio is its blocks up to the turn-complete one, then for each part
    a [DecodeBegin] and, after whatever else comes in meanwhile, a
    [DecodeEnd], then its interruption block; all of these are events
    here, so every interleaving is a list of events. A part on which
    the decoder throws is a [DecodeBegin] that no [DecodeEnd] follows,
    and its message has no interruption block. *)
(* ================================================================== *)

Inductive Event :=
| Message (token : Z) (env : Env) (message : LiveServerMessage)
| DecodeBegin (env : Env)
| DecodeEnd (d : Q)
| Ended (n : nat)
| Close
| Stop
| StartBegin
| StartAcquired (token : Z) (stream : MediaStream)
| StartConnected (token : Z) (session : Session).

Definition handle (e : Event) (s : State) : State :=
  match e with
  | Message token env message => onmessage token env message s
  | DecodeBegin env => enqueue_begin env s
  | DecodeEnd d => enqueue_finish d s
  | Ended n => onended n s
  | Close => onclose s
  | Stop => stopSession s
  | StartBegin => snd (startSession_begin s)
  | StartAcquired token stream => snd (startSession_acquired token stream s)
  | StartConnected token session => startSession_connected token session s
  end.

Definition run (events : list Event) (s : State) : State :=
  fold_left (fun acc e => handle e acc) events s.

(** The durations of the buffers decoded from a list of parts. *)
Definition partDurations (parts : list Part) : list Q :=
  flat_map (fun part => match inlineData part with
                        | Some (Buffer d) => [d]
                        | _ => []
                        end) parts.

(** No part of the list makes the decoder throw. *)
Definition decodes (parts : list Part) : Prop :=
  Forall (fun part => inlineData part <> Some Thrown) parts.

(** The durations of the buffers an event brings. *)
Definition durationsOf (e : Event) : list Q :=
  match e with
  | Message _ _ message =>
      match serverContent message with
      | Some content =>
          match modelTurn content with
          | Some parts => partDurations parts
          | None => []
          end
      | None => []
      end
  | DecodeEnd d => [d]
  | _ => []
  end.

(** Events that are neither a start nor a stop of the session. *)
Definition inSession (e : Event) : bool :=
  match e with
  | Message _ _ _ | DecodeBegin _ | DecodeEnd _ | Ended _ | Close => true
  | _ => false
  end.

(** Each text restates the one before it and more, from [prev] on. *)
Fixpoint restatements (prev : string) (deltas : list string) : Prop :=
  match deltas with
  | [] => True
  | delta :: rest => leading prev delta /\ restatements delta rest
  end.

(** What is shown is what the refs hold: the committed list and the two
    captions. *)
Definition mirrored (s : State) : Prop :=
  transcription s = transcriptionRef s
  /\ activeUserText s = currentInputText s
  /\ activeModelText s = currentOutputText s.

(** Every committed item has a text that is not empty and has no white
    space around it. *)
Definition cleanLog (s : State) : Prop :=
  Forall (fun item => text item <> "" /\ JS.trim (text item) = text item)
    (transcriptionRef s).

(** The books of the sources: those stopped and those live are distinct
    sources, all of them created; the live ones were started; the
    sources started are numbered in order. *)
Definition booked (s : State) : Prop :=
  NoDup (halted s ++ map node (sourcesRef s))
  /\ Forall (fun n => (n < List.length (started s))%nat)
       (halted s ++ map node (sourcesRef s))
  /\ incl (sourcesRef s) (started s)
  /\ map node (started s) = seq 0 (List.length (started s)).

(** The events that take a new token. *)
Definition takesToken (e : Event) : bool :=
  match e with
  | Stop | StartBegin => true
  | _ => false
  end.

Definition bumps (events : list Event) : nat :=
  List.length (filter takesToken events).

(** The resources of the session and its token, as a tuple. *)
Definition resources (s : State) :=
  (sessionRef s, streamRef s, audioContextInRef s, audioContextOutRef s,
   closed s, sessionTokenRef s).

(* ================================================================== *)
(** * The application shell (App) *)
(* ================================================================== *)

Record TrainingSessionConfig := {
  role : string;
  contextText : string;
  fileName : string
}.

Inductive SessionState := SETUP | ACTIVE | EVALUATION.

Module App.

(** The three state cells of [App]. *)
Record t := {
  state : SessionState;
  config : option TrainingSessionConfig;
  history : list TranscriptionItem
}.

Definition initial : t :=
  {| state := SETUP; config := None; history := [] |}.

Definition handleStart (newConfig : TrainingSessionConfig) (app : t) : t :=
  {| state := ACTIVE; config := Some newConfig; history := history app |}.

Definition handleEnd (finalHistory : list TranscriptionItem) (app : t) : t :=
  {| state := EVALUATION; config := config app; history := finalHistory |}.

Definition handleReset (app : t) : t :=
  {| state := SETUP; config := None; history := [] |}.

Inductive Screen := SetupForm | LiveConversation | EvaluationView.

Definition isState (a b : SessionState) : bool :=
  match a, b with
  | SETUP, SETUP | ACTIVE, ACTIVE | EVALUATION, EVALUATION => true
  | _, _ => false
  end.

Definition present {A} (o : option A) : bool :=
  match o with
  | Some _ => true
  | None => false
  end.

(** The children that [main] renders, in source order. *)
Definition rendered (app : t) : list Screen :=
  ((if isState (state app) SETUP then [SetupForm] else [])
   ++ (if isState (state app) ACTIVE && present (config app)
       then [LiveConversation] else [])
   ++ (if isState (state app) EVALUATION && present (config app)
       then [EvaluationView] else []))%list.

Definition shows (screen : Screen) (app : t) : bool :=
  existsb (fun r => match r, screen with
                    | SetupForm, SetupForm
                    | LiveConversation, LiveConversation
                    | EvaluationView, EvaluationView => true
                    | _, _ => false
                    end) (rendered app).

(** What the children can do: each calls back the prop it was given. *)
Inductive Action :=
| OnStart (newConfig : TrainingSessionConfig)
| OnEnd (finalHistory : list TranscriptionItem)
| OnReset.

(** A child calls back only while it is rendered. *)
Definition dispatch (a : Action) (app : t) : t :=
  match a with
  | OnStart newConfig =>
      if shows SetupForm app then handleStart newConfig app else app
  | OnEnd finalHistory =>
      if shows LiveConversation app then handleEnd finalHistory app else app
  | OnReset =>
      if shows EvaluationView app then handleReset app else app
  end.

Definition run (actions : list Action) (app : t) : t :=
  fold_left (fun acc a => dispatch a acc) actions app.

End App.

(* ================================================================== *)
(** * The setup form (SetupForm) *)
(* ================================================================== *)

Module File.

(** An uploaded file: its name and what [readFileAsText] makes of it
    ([None] when the read is rejected). *)
Record t := {
  name : string;
  text : option string
}.

End File.

Module SetupForm.

Record Preset := {
  name : string;
  content : string
}.

Definition PRESET_FILES : list Preset := [
  {| name := "Customer Service Policy.txt";
     content := "Our policy is to always listen to the customer first. We provide refunds within 30 days. We never argue with customers." |};
  {| name := "Technical Sales Guide.txt";
     content := "The Gemini Live API is a low-latency multimodal tool. It supports PCM 16kHz audio input and 24kHz audio output. It is best used for real-time interaction." |};
  {| name := "Interview Question Bank.txt";
     content := "Standard questions: Tell me about yourself. Why do you want this job? What is your greatest weakness? Where do you see yourself in 5 years?" |}
].

Inductive Permission := prompt | granted | denied.

(** The five state cells of the form. *)
Record t := {
  role : string;
  file : option File.t;
  selectedPreset : option string;
  loading : bool;
  micPermission : Permission
}.

Definition initial : t := {|
  role := "A customer with age 25 and monthly income of 50000 Rupees. He will ask questions about our product and services and we have to answer him in a way that he will buy our product.";
  file := None;
  selectedPreset := None;
  loading := false;
  micPermission := prompt
|}.

(** What a submit does besides setting state. *)
Inductive Effect :=
| Alert (message : string)
| ConsoleError
| Start (config : TrainingSessionConfig).

Definition isGranted (p : Permission) : bool :=
  match p with
  | granted => true
  | _ => false
  end.

(** [value || ''] for an optional string. *)
Definition orEmpty (value : option string) : string :=
  match value with
  | Some s => if JS.falsy s then "" else s
  | None => ""
  end.

Definition withLoading (l : bool) (form : t) : t := {|
  role := role form;
  file := file form;
  selectedPreset := selectedPreset form;
  loading := l;
  micPermission := micPermission form
|}.

(** [handleSubmit]: the form afterwards and the effects, in order. *)
Definition handleSubmit (form : t) : t * list Effect :=
  if negb (isGranted (micPermission form)) then
    (form, [Alert "Please enable microphone access to start the session."])
  else
    match file form with
    | Some f =>
        match File.text f with
        | Some read =>
            (withLoading false form,
             [Start (Build_TrainingSessionConfig (role form) read (File.name f))])
        | None =>
            (withLoading false form,
             [ConsoleError; Alert "Failed to process context. Please try again."])
        end
    | None =>
        match selectedPreset form with
        | Some selected =>
            if JS.truthy selected then
              let preset := find (fun p => String.eqb (name p) selected) PRESET_FILES in
              (withLoading false form,
               [Start (Build_TrainingSessionConfig
                         (role form)
                         (orEmpty (option_map content preset))
                         (orEmpty (option_map name preset)))])
            else
              (withLoading false form,
               [Alert "Please upload a file or select a preset document."])
        | None =>
            (withLoading false form,
             [Alert "Please upload a file or select a preset document."])
        end
    end.

(** What the user and the browser can do to the form. *)
Inductive Action :=
| TypeRole (value : string)
| ClickPreset (index : nat)
| ChooseFile (chosen : option File.t)
| PermissionIs (p : Permission)
| RequestMic (allowed : bool)
| Submit.

Definition dispatch (a : Action) (form : t) : t :=
  match a with
  | TypeRole value =>
      {| role := value; file := file form;
         selectedPreset := selectedPreset form;
         loading := loading form; micPermission := micPermission form |}
  | ClickPreset index =>
      match nth_error PRESET_FILES index with
      | Some p =>
          {| role := role form; file := None;
             selectedPreset := Some (name p);
             loading := loading form; micPermission := micPermission form |}
      | None => form
      end
  | ChooseFile chosen =>
      {| role := role form; file := chosen;
         selectedPreset := None;
         loading := loading form; micPermission := micPermission form |}
  | PermissionIs p =>
      {| role := role form; file := file form;
         selectedPreset := selectedPreset form;
         loading := loading form; micPermission := p |}
  | RequestMic allowed =>
      {| role := role form; file := file form;
         selectedPreset := selectedPreset form;
         loading := loading form;
         micPermission := if allowed then granted else denied |}
  | Submit => fst (handleSubmit form)
  end.

Definition run (actions : list Action) (form : t) : t :=
  fold_left (fun acc a => dispatch a acc) actions form.

End SetupForm.

(** At most one of a file and a preset is chosen, and a chosen preset
    is one of the library. *)
Definition selectionSound (form : SetupForm.t) : Prop :=
  (SetupForm.file form = None \/ SetupForm.selectedPreset form = None)
  /\ (forall selected,
         SetupForm.selectedPreset form = Some selected ->
         exists p, In p SetupForm.PRESET_FILES /\ SetupForm.name p = selected).

(** The schedule as it is asked of [start]: the live sources overlap by
    no more than the rounding of one addition, none is asked to start
    before time zero, each ends, within that rounding, by the next
    start time, and the next start time is a double that is not
    negative. The times are those passed to [start]; a source asked to
    start at a time the clock has passed by then sounds at once, which
    is not told here. *)
Definition scheduleKept (s : State) : Prop :=
  overlapWithinRounding (sourcesRef s)
  /\ Forall (fun src =>
               0 <= when src
               /\ when src + duration src
                  - JS.ulp (when src + duration src) / 2
                  <= nextStartTimeRef s)
       (sourcesRef s)
  /\ 0 <= nextStartTimeRef s
  /\ JS.isDouble (nextStartTimeRef s).

(** The clock an event reads is at a double, and the buffers it brings
    have durations that are not negative. *)
Definition timed (e : Event) : Prop :=
  match e with
  | Message _ env _ | DecodeBegin env => JS.isDouble (currentTime env)
  | _ => True
  end
  /\ Forall (fun d => 0 <= d) (durationsOf e).

(** The sums of the loop over [parts], met with the clock at [now] and
    the next start time at [next], stay within the finite doubles. *)
Fixpoint finiteParts (now next : Q) (parts : list Part) : Prop :=
  match parts with
  | [] => True
  | part :: rest =>
      match inlineData part with
      | Some (Buffer d) =>
          JS.Math_max next now + d <= JS.MAX_VALUE
          /\ finiteParts now (JS.add (JS.Math_max next now) d) rest
      | Some Thrown => True
      | None => finiteParts now next rest
      end
  end.

(** The sums an event makes from the state it meets stay within the
    finite doubles. *)
Definition finiteAt (e : Event) (s : State) : Prop :=
  match e with
  | Message _ env message =>
      match serverContent message with
      | Some content =>
          match modelTurn content with
          | Some parts =>
              finiteParts (currentTime env) (nextStartTimeRef s) parts
          | None => True
          end
      | None => True
      end
  | DecodeEnd d => nextStartTimeRef s + d <= JS.MAX_VALUE
  | _ => True
  end.

(** No sum of the run overflows. *)
Fixpoint finiteRun (events : list Event) (s : State) : Prop :=
  match events with
  | [] => True
  | e :: rest => finiteAt e s /\ finiteRun rest (handle e s)
  end.

(* ================================================================== *)
(** * Properties of the primitives *)
(* ================================================================== *)

Section Primitives.

Lemma falsy_empty (s : string) : JS.falsy s = true <-> s = "".
Proof. destruct s; simpl; split; intros H; (reflexivity || discriminate). Qed.

Lemma truthy_nonempty (s : string) : JS.truthy s = true <-> s <> "".
Proof.
  destruct s; simpl; split; intros H;
    (reflexivity || discriminate || now elim H).
Qed.

Lemma append_empty_r (s : string) : s ++ "" = s.
Proof. induction s as [|c s IH]; simpl; [reflexivity | now rewrite IH]. Qed.

Lemma startsWith_leading (s search : string) :
  JS.startsWith s search = true <-> leading search s.
Proof.
  revert s; induction search as [|c search IH]; intros s; simpl.
  - split; [intros _; now exists s | reflexivity].
  - destruct s as [|d s].
    + split; [discriminate | intros [rest H]; discriminate].
    + destruct (Ascii.eqb_spec c d) as [->|Hcd].
      * rewrite IH. split; intros [rest H]; exists rest; simpl in *; congruence.
      * split; [discriminate | intros [rest H]; simpl in H; congruence].
Qed.

Lemma startsWith_refl (s : string) : JS.startsWith s s = true.
Proof. apply startsWith_leading. exists "". now rewrite append_empty_r. Qed.

Lemma leading_refl (s : string) : leading s s.
Proof. apply startsWith_leading, startsWith_refl. Qed.

Lemma leading_append (p q : string) : leading p (p ++ q).
Proof. now exists q. Qed.

Lemma append_length (a b : string) :
  String.length (a ++ b) = (String.length a + String.length b)%nat.
Proof. induction a as [|c a IH]; simpl; [reflexivity | now rewrite IH]. Qed.

Lemma append_cancel_empty (a b : string) : a = a ++ b -> b = "".
Proof.
  intros H. apply (f_equal String.length) in H.
  rewrite append_length in H. destruct b; [reflexivity | simpl in H; lia].
Qed.

Lemma append_assoc (a b c : string) : (a ++ b) ++ c = a ++ (b ++ c).
Proof. induction a as [|x a IH]; simpl; [reflexivity | now rewrite IH]. Qed.

(** Two strings that lead one another are the same string. *)
Lemma leading_antisym (a b : string) : leading a b -> leading b a -> a = b.
Proof.
  intros [r1 H1] [r2 H2]. subst b. rewrite append_assoc in H2.
  apply append_cancel_empty in H2.
  destruct r1; [now rewrite append_empty_r | discriminate].
Qed.

Lemma leading_empty (p : string) : leading p "" -> p = "".
Proof. intros [rest H]. destruct p; [reflexivity | discriminate]. Qed.

Lemma Math_max_ahead (next now : Q) : now <= next -> JS.Math_max next now = next.
Proof.
  intros H. unfold JS.Math_max. destruct (Qlt_le_dec next now); [lra | reflexivity].
Qed.

Lemma Math_max_lower (a b : Q) : a <= JS.Math_max a b.
Proof. unfold JS.Math_max. destruct (Qlt_le_dec a b); lra. Qed.

Lemma Math_max_zero (now : Q) : 0 <= now -> JS.Math_max 0 now == now.
Proof. intros H. unfold JS.Math_max. destruct (Qlt_le_dec 0 now); lra. Qed.

End Primitives.

(* ================================================================== *)
(** * Doubles

    [JS.nearestDouble] is rounding to the doubles of the binade that
    [JS.binade] finds: within half a unit in the last place, never
    across a double, and the identity on doubles. *)
(* ================================================================== *)

Section Doubles.

Lemma ulp_pos (x : Q) : 0 < JS.ulp x.
Proof. unfold JS.ulp. apply Qpower_0_lt. reflexivity. Qed.

Lemma roundHalfEven_close (q : Q) :
  Qabs (inject_Z (JS.roundHalfEven q) - q) <= 1 # 2.
Proof.
  unfold JS.roundHalfEven. cbv zeta.
  pose proof (Qfloor_le q) as L. pose proof (Qlt_floor q) as U.
  rewrite inject_Z_plus in U. change (inject_Z 1) with 1 in U.
  apply Qabs_Qle_condition.
  destruct (Qcompare (q - inject_Z (Qfloor q)) (1 # 2)) eqn:C.
  - apply Qeq_alt in C.
    destruct (Z.even (Qfloor q)); [|rewrite inject_Z_plus; change (inject_Z 1) with 1];
      split; lra.
  - apply Qlt_alt in C. split; lra.
  - apply Qgt_alt in C. rewrite inject_Z_plus. change (inject_Z 1) with 1.
    split; lra.
Qed.

Lemma nearestDouble_close (x : Q) :
  Qabs (JS.nearestDouble x - x) <= JS.ulp x / 2.
Proof.
  unfold JS.nearestDouble. pose proof (ulp_pos x) as P.
  set (u := JS.ulp x) in *.
  assert (H : u / 2 == u * (1 # 2)) by (field; discriminate).
  rewrite H. apply Qabs_Qle_condition.
  destruct (Qeq_bool x 0) eqn:Z.
  - apply Qeq_bool_eq in Z. split; lra.
  - pose proof (roundHalfEven_close (x / u)) as C.
    apply Qabs_Qle_condition in C.
    set (n := inject_Z (JS.roundHalfEven (x / u))) in *.
    assert (E : x == (x / u) * u) by (field; lra).
    set (q := x / u) in *. destruct C as [C1 C2].
    split; nra.
Qed.

Lemma pow2_inject (n : Z) : (0 <= n)%Z -> inject_Z (2 ^ n) == 2 ^ n.
Proof. intros H. now rewrite Zpower_Qpower. Qed.

Lemma binade_spec (x : Q) :
  0 < x -> 2 ^ JS.binade x <= x /\ x < 2 ^ (JS.binade x + 1).
Proof.
  intros Hx. destruct x as [n d]. unfold JS.binade. cbn [Qnum Qden].
  assert (Hn : (0 < n)%Z) by (unfold Qlt in Hx; simpl in Hx; lia).
  set (a := Z.log2 n). set (b := Z.log2 (Z.pos d)).
  assert (Ha : (0 <= a)%Z) by apply Z.log2_nonneg.
  assert (Hb : (0 <= b)%Z) by apply Z.log2_nonneg.
  destruct (Z.log2_spec n Hn) as [A1 A2]. fold a in A1, A2.
  destruct (Z.log2_spec (Z.pos d) eq_refl) as [B1 B2]. fold b in B1, B2.
  assert (QA1 : 2 ^ a <= inject_Z n)
    by (rewrite <- pow2_inject by lia; now rewrite <- Zle_Qle).
  assert (QA2 : inject_Z n < 2 ^ (a + 1))
    by (rewrite <- pow2_inject by lia; rewrite <- Zlt_Qlt; now rewrite <- Z.add_1_r in A2).
  assert (QB1 : 2 ^ b <= inject_Z (Z.pos d))
    by (rewrite <- pow2_inject by lia; now rewrite <- Zle_Qle).
  assert (QB2 : inject_Z (Z.pos d) < 2 ^ (b + 1))
    by (rewrite <- pow2_inject by lia; rewrite <- Zlt_Qlt; now rewrite <- Z.add_1_r in B2).
  assert (X : n # d == inject_Z n / inject_Z (Z.pos d)) by apply Qmake_Qdiv.
  assert (Dpos : 0 < inject_Z (Z.pos d)) by reflexivity.
  assert (T : ~ 2 == 0) by discriminate.
  assert (Pb : 0 < 2 ^ b) by (apply Qpower_0_lt; reflexivity).
  assert (Pa : 0 < 2 ^ a) by (apply Qpower_0_lt; reflexivity).
  assert (E1 : 2 ^ (a - b + 1) == 2 ^ (a + 1) / 2 ^ b).
  { replace (a - b + 1)%Z with ((a + 1) + - b)%Z by lia.
    rewrite Qpower_plus, Qpower_opp by exact T. reflexivity. }
  assert (E0 : 2 ^ (a - b - 1) == 2 ^ a / 2 ^ (b + 1)).
  { replace (a - b - 1)%Z with (a + - (b + 1))%Z by lia.
    rewrite Qpower_plus, Qpower_opp by exact T. reflexivity. }
  assert (Pb1 : 0 < 2 ^ (b + 1)) by (apply Qpower_0_lt; reflexivity).
  assert (Pa1 : 0 < 2 ^ (a + 1)) by (apply Qpower_0_lt; reflexivity).
  set (N := inject_Z n) in *. set (D := inject_Z (Z.pos d)) in *.
  assert (Npos : 0 < N) by lra.
  assert (R : N == (N / D) * D) by (field; lra).
  assert (Rpos : 0 < N / D) by (apply Qlt_shift_div_l; lra).
  assert (Up : n # d < 2 ^ (a - b + 1)).
  { rewrite X, E1.
    assert (K : 2 ^ (a + 1) == (2 ^ (a + 1) / 2 ^ b) * 2 ^ b) by (field; lra).
    assert (Kpos : 0 < 2 ^ (a + 1) / 2 ^ b) by (apply Qlt_shift_div_l; lra).
    set (r := N / D) in *. set (t := 2 ^ (a + 1) / 2 ^ b) in *.
    set (A := 2 ^ (a + 1)) in *. set (B := 2 ^ b) in *.
    apply Qnot_le_lt. intros G. nra. }
  assert (Lo : 2 ^ (a - b - 1) <= n # d).
  { rewrite X, E0.
    assert (K : 2 ^ a == (2 ^ a / 2 ^ (b + 1)) * 2 ^ (b + 1)) by (field; lra).
    assert (Kpos : 0 < 2 ^ a / 2 ^ (b + 1)) by (apply Qlt_shift_div_l; lra).
    set (r := N / D) in *. set (t := 2 ^ a / 2 ^ (b + 1)) in *.
    set (A := 2 ^ a) in *. set (B := 2 ^ (b + 1)) in *.
    apply Qnot_lt_le. intros G. nra. }
  destruct (Qle_bool (2 ^ (a - b)) (n # d)) eqn:C.
  - apply Qle_bool_iff in C. split; assumption.
  - assert (C' : n # d < 2 ^ (a - b)).
    { apply Qnot_le_lt. intros H. apply Qle_bool_iff in H. congruence. }
    replace (a - b - 1 + 1)%Z with (a - b)%Z by lia. split; assumption.
Qed.



Lemma pow2_pos (e : Z) : 0 < 2 ^ e.
Proof. apply Qpower_0_lt. reflexivity. Qed.

Lemma pow2_le (n m : Z) : (n <= m)%Z -> 2 ^ n <= 2 ^ m.
Proof. intros H. apply Qpower_le_compat_l; [exact H | discriminate]. Qed.

Lemma pow2_plus (n m : Z) : 2 ^ (n + m) == 2 ^ n * 2 ^ m.
Proof. apply Qpower_plus. discriminate. Qed.

Lemma binade_unique (x : Q) (e : Z) :
  2 ^ e <= x -> x < 2 ^ (e + 1) -> JS.binade x = e.
Proof.
  intros L U.
  assert (Hx : 0 < x) by (pose proof (pow2_pos e); lra).
  destruct (binade_spec x Hx) as [L' U'].
  destruct (Z.lt_trichotomy (JS.binade x) e) as [H|[H|H]]; [|exact H|].
  - pose proof (pow2_le (JS.binade x + 1) e ltac:(lia)). lra.
  - pose proof (pow2_le (e + 1) (JS.binade x) ltac:(lia)). lra.
Qed.

Lemma binade_mono (x y : Q) : 0 < x -> x <= y -> (JS.binade x <= JS.binade y)%Z.
Proof.
  intros Hx Hxy.
  destruct (binade_spec x Hx) as [Lx Ux].
  destruct (binade_spec y ltac:(lra)) as [Ly Uy].
  destruct (Z_le_gt_dec (JS.binade x) (JS.binade y)) as [H|H]; [exact H|].
  pose proof (pow2_le (JS.binade y + 1) (JS.binade x) ltac:(lia)). lra.
Qed.

Lemma Qabs_of_pos (x : Q) : 0 < x -> Qabs x = x.
Proof.
  destruct x as [n d]. unfold Qlt, Qabs. simpl. intros H.
  f_equal. apply Z.abs_eq. lia.
Qed.

Lemma roundHalfEven_ge (m : Z) (q : Q) :
  inject_Z m <= q -> (m <= JS.roundHalfEven q)%Z.
Proof.
  intros H0. pose proof (Qfloor_resp_le _ _ H0) as H. rewrite Qfloor_Z in H.
  unfold JS.roundHalfEven. cbv zeta.
  destruct (Qcompare (q - inject_Z (Qfloor q)) (1 # 2));
    [destruct (Z.even (Qfloor q))| |]; lia.
Qed.

Lemma roundHalfEven_le (m : Z) (q : Q) :
  q <= inject_Z m -> (JS.roundHalfEven q <= m)%Z.
Proof.
  intros H. pose proof (Qfloor_le q) as L.
  pose proof (Qfloor_resp_le _ _ H) as F. rewrite Qfloor_Z in F.
  destruct (Z.eq_dec (Qfloor q) m) as [E|N].
  - unfold JS.roundHalfEven. cbv zeta. rewrite E in *.
    assert (C : Qcompare (q - inject_Z m) (1 # 2) = Lt)
      by (apply (proj1 (Qlt_alt _ _)); lra).
    rewrite C. lia.
  - unfold JS.roundHalfEven. cbv zeta.
    destruct (Qcompare (q - inject_Z (Qfloor q)) (1 # 2));
      [destruct (Z.even (Qfloor q))| |]; lia.
Qed.

(** The nearest double of a positive number, by its scaled rounding. *)
Lemma nearestDouble_pos (x : Q) :
  0 < x ->
  JS.nearestDouble x
  = inject_Z (JS.roundHalfEven (x / JS.ulp x)) * JS.ulp x.
Proof.
  intros H. unfold JS.nearestDouble.
  destruct (Qeq_bool x 0) eqn:Z; [|reflexivity].
  apply Qeq_bool_eq in Z. lra.
Qed.

Lemma exponent_pos (x : Q) :
  0 < x -> JS.exponent x = Z.max (JS.binade x) (-1022).
Proof. intros H. unfold JS.exponent. now rewrite Qabs_of_pos. Qed.

Lemma scaled_bounds (x : Q) :
  0 < x ->
  x / JS.ulp x < inject_Z (2 ^ 53)
  /\ ((-1022 <= JS.binade x)%Z -> inject_Z (2 ^ 52) <= x / JS.ulp x).
Proof.
  intros Hx. destruct (binade_spec x Hx) as [L U].
  pose proof (ulp_pos x) as P. unfold JS.ulp in *.
  rewrite (exponent_pos x Hx) in *.
  set (c := Z.max (JS.binade x) (-1022)) in *.
  assert (U' : x < 2 ^ (c + 1))
    by (pose proof (pow2_le (JS.binade x + 1) (c + 1) ltac:(lia)); lra).
  assert (E53 : 2 ^ (c + 1) == inject_Z (2 ^ 53) * 2 ^ (c - 52)).
  { replace (c + 1)%Z with (53 + (c - 52))%Z by lia. rewrite pow2_plus.
    now rewrite <- (pow2_inject 53) by lia. }
  split.
  - apply Qlt_shift_div_r; [exact P|]. lra.
  - intros Hn. assert (c = JS.binade x) by lia.
    assert (E52 : 2 ^ c == inject_Z (2 ^ 52) * 2 ^ (c - 52)).
    { replace c with (52 + (c - 52))%Z at 1 by lia. rewrite pow2_plus.
      now rewrite <- (pow2_inject 52) by lia. }
    apply Qle_shift_div_l; [exact P|]. rewrite <- E52. congruence.
Qed.

(** The value a positive double has on its own grid. *)
Lemma isDouble_grid (g : Q) :
  0 < g -> JS.isDouble g ->
  exists m, g == inject_Z m * JS.ulp g /\ inject_Z m == g / JS.ulp g.
Proof.
  intros Hg D. unfold JS.isDouble in D. rewrite (nearestDouble_pos g Hg) in D.
  exists (JS.roundHalfEven (g / JS.ulp g)). pose proof (ulp_pos g) as P.
  split; [now symmetry|].
  set (m := inject_Z (JS.roundHalfEven (g / JS.ulp g))) in *.
  set (u := JS.ulp g) in *. rewrite <- D at 1. field. lra.
Qed.

(** Rounding to the nearest double never crosses a double. *)
Lemma nearestDouble_above (g y : Q) :
  0 <= g -> JS.isDouble g -> g <= y -> g <= JS.nearestDouble y.
Proof.
  intros Hg D Hy.
  destruct (Qlt_le_dec 0 y) as [Py|Zy].
  2:{ unfold JS.nearestDouble.
      assert (E : Qeq_bool y 0 = true) by (apply Qeq_bool_iff; lra).
      rewrite E. lra. }
  rewrite (nearestDouble_pos y Py). pose proof (ulp_pos y) as Uy.
  destruct (Qlt_le_dec 0 g) as [Pg|Zg].
  2:{ assert (N : (0 <= JS.roundHalfEven (y / JS.ulp y))%Z).
      { apply roundHalfEven_ge. apply Qle_shift_div_l; [exact Uy|].
        change (inject_Z 0) with 0. lra. }
      rewrite Zle_Qle in N.
      set (n := inject_Z (JS.roundHalfEven (y / JS.ulp y))) in *.
      change (inject_Z 0) with 0 in N. nra. }
  destruct (isDouble_grid g Pg D) as (m & Gm & Mg).
  pose proof (ulp_pos g) as Ug.
  pose proof (binade_mono g y Pg Hy) as B.
  destruct (Z.eq_dec (JS.exponent g) (JS.exponent y)) as [E|N].
  - assert (Eu : JS.ulp g = JS.ulp y) by (unfold JS.ulp; now rewrite E).
    rewrite Eu in *.
    assert (M : (m <= JS.roundHalfEven (y / JS.ulp y))%Z).
    { apply roundHalfEven_ge. rewrite Mg.
      apply Qle_shift_div_l; [exact Uy|].
      assert (K : g / JS.ulp y * JS.ulp y == g) by (field; lra).
      rewrite K. exact Hy. }
    rewrite Zle_Qle in M.
    set (n := inject_Z (JS.roundHalfEven (y / JS.ulp y))) in *.
    set (u := JS.ulp y) in *. set (im := inject_Z m) in *. nra.
  - rewrite (exponent_pos g Pg), (exponent_pos y Py) in N.
    assert (Hb : (-1022 <= JS.binade y)%Z) by lia.
    assert (Hgy : (JS.binade g + 1 <= JS.binade y)%Z) by lia.
    destruct (scaled_bounds y Py) as [_ S]. specialize (S Hb).
    assert (M : (2 ^ 52 <= JS.roundHalfEven (y / JS.ulp y))%Z)
      by (apply roundHalfEven_ge; exact S).
    rewrite Zle_Qle in M.
    destruct (binade_spec g Pg) as [_ Ugb].
    pose proof (pow2_le _ _ Hgy) as P1.
    assert (E52 : 2 ^ JS.binade y == inject_Z (2 ^ 52) * JS.ulp y).
    { unfold JS.ulp. rewrite (exponent_pos y Py).
      replace (Z.max (JS.binade y) (-1022)) with (JS.binade y) by lia.
      replace (JS.binade y) with (52 + (JS.binade y - 52))%Z at 1 by lia.
      rewrite pow2_plus. now rewrite <- (pow2_inject 52) by lia. }
    set (n := inject_Z (JS.roundHalfEven (y / JS.ulp y))) in *.
    set (u := JS.ulp y) in *. set (k := inject_Z (2 ^ 52)) in *.
    assert (k * u <= n * u) by nra. lra.
Qed.

(** The nearest double is a double. *)
Lemma nearestDouble_isDouble (x : Q) :
  0 <= x -> JS.isDouble (JS.nearestDouble x).
Proof.
  intros Hx0. unfold JS.isDouble.
  destruct (Qlt_le_dec 0 x) as [Hx|Zx].
  2:{ assert (E : Qeq_bool x 0 = true) by (apply Qeq_bool_iff; lra).
      unfold JS.nearestDouble at 2 3. rewrite E. reflexivity. }
  rewrite (nearestDouble_pos x Hx).
  pose proof (ulp_pos x) as Pu.
  destruct (scaled_bounds x Hx) as [S53 S52].
  destruct (binade_spec x Hx) as [Lx Ux].
  set (c := JS.exponent x).
  assert (Hc : c = Z.max (JS.binade x) (-1022)) by apply exponent_pos, Hx.
  assert (Eu : JS.ulp x = 2 ^ (c - 52)) by reflexivity.
  set (q := x / JS.ulp x) in *.
  set (n := JS.roundHalfEven q).
  assert (N0 : (0 <= n)%Z).
  { apply roundHalfEven_ge. apply Qle_shift_div_l; [exact Pu|].
    change (inject_Z 0) with 0. lra. }
  assert (N53 : (n <= 2 ^ 53)%Z) by (apply roundHalfEven_le; lra).
  set (v := inject_Z n * JS.ulp x).
  destruct (Z.eq_dec n 0) as [Zn|Nn].
  { assert (V : v == 0) by (unfold v; rewrite Zn; ring).
    unfold JS.nearestDouble.
    assert (E : Qeq_bool v 0 = true) by (apply Qeq_bool_iff; exact V).
    rewrite E. now symmetry. }
  assert (Pn : 0 < inject_Z n).
  { change 0 with (inject_Z 0). rewrite <- Zlt_Qlt. lia. }
  assert (Pv : 0 < v) by (unfold v; nra).
  rewrite (nearestDouble_pos v Pv).
  assert (P2c : 2 ^ (c + 1) == inject_Z (2 ^ 53) * JS.ulp x).
  { rewrite Eu. replace (c + 1)%Z with (53 + (c - 52))%Z by lia.
    rewrite pow2_plus. now rewrite <- (pow2_inject 53) by lia. }
  destruct (Z.eq_dec n (2 ^ 53)) as [T|T].
  - (* rounded up to the next power of two *)
    assert (V : v == 2 ^ (c + 1)) by (unfold v; rewrite T, P2c; reflexivity).
    assert (Bv : JS.binade v = (c + 1)%Z).
    { apply binade_unique; [lra|]. rewrite V.
      apply Qpower_lt_compat_l; [lia | reflexivity]. }
    assert (Uv : JS.ulp v = 2 ^ (c - 51)).
    { unfold JS.ulp. rewrite (exponent_pos v Pv), Bv. f_equal. lia. }
    rewrite Uv.
    assert (P51 : 0 < 2 ^ (c - 51)) by apply pow2_pos.
    assert (W : v == inject_Z (2 ^ 52) * 2 ^ (c - 51)).
    { rewrite V. replace (c + 1)%Z with (52 + (c - 51))%Z by lia.
      rewrite pow2_plus. now rewrite <- (pow2_inject 52) by lia. }
    assert (R : JS.roundHalfEven (v / 2 ^ (c - 51)) = (2 ^ 52)%Z).
    { assert (Q1 : v / 2 ^ (c - 51) == inject_Z (2 ^ 52))
        by (rewrite W; field; lra).
      apply Z.le_antisymm;
        [apply roundHalfEven_le | apply roundHalfEven_ge]; rewrite Q1; lra. }
    rewrite R. now symmetry.
  - (* in the same binade, or below the normal range *)
    assert (N53' : inject_Z n <= inject_Z (2 ^ 53 - 1)) by (rewrite <- Zle_Qle; lia).
    assert (Vlt : v < 2 ^ (c + 1)).
    { rewrite P2c. unfold v.
      assert (inject_Z (2 ^ 53 - 1) < inject_Z (2 ^ 53)) by reflexivity.
      set (a := inject_Z n) in *. nra. }
    assert (Ev : JS.exponent v = c).
    { rewrite (exponent_pos v Pv).
      destruct (binade_spec v Pv) as [Lv Uv].
      assert (Bc : (JS.binade v <= c)%Z).
      { destruct (Z_le_gt_dec (JS.binade v) c) as [H|H]; [exact H|].
        pose proof (pow2_le (c + 1) (JS.binade v) ltac:(lia)). lra. }
      destruct (Z_le_gt_dec (JS.binade x) (-1022)) as [Sub|Nor]; [lia|].
      assert (Hb : c = JS.binade x) by lia.
      specialize (S52 ltac:(lia)).
      assert (N52 : (2 ^ 52 <= n)%Z) by (apply roundHalfEven_ge; exact S52).
      rewrite Zle_Qle in N52.
      assert (E52 : 2 ^ c == inject_Z (2 ^ 52) * JS.ulp x).
      { rewrite Eu. replace c with (52 + (c - 52))%Z at 1 by lia.
        rewrite pow2_plus. now rewrite <- (pow2_inject 52) by lia. }
      assert (Vge : 2 ^ c <= v).
      { rewrite E52. unfold v. set (a := inject_Z n) in *.
        set (k := inject_Z (2 ^ 52)) in *. nra. }
      rewrite (binade_unique v c Vge Vlt). lia. }
    assert (Uv : JS.ulp v = JS.ulp x) by (unfold JS.ulp; now rewrite Ev).
    rewrite Uv.
    assert (R : JS.roundHalfEven (v / JS.ulp x) = n).
    { assert (Q1 : v / JS.ulp x == inject_Z n) by (unfold v; field; lra).
      apply Z.le_antisymm;
        [apply roundHalfEven_le | apply roundHalfEven_ge]; rewrite Q1; lra. }
    rewrite R. reflexivity.
Qed.

(** On each of the [additions], [JS.add] is the binary64 addition of
    the kernel. *)
Lemma add_is_binary64 :
  forallb (fun p => addsAsDoubles (fst p) (snd p)) additions = true.
Proof. vm_compute. reflexivity. Qed.

(** The largest double added to itself is no finite double: such sums
    are outside what [JS.add] stands for. *)
Lemma add_overflows :
  doubleValue (PrimFloat.add (double 9007199254740991 971)
                             (double 9007199254740991 971)) = None
  /\ ~ Qabs (JS.MAX_VALUE + JS.MAX_VALUE) <= JS.MAX_VALUE.
Proof. split; [vm_compute; reflexivity | vm_compute; intros H; now apply H]. Qed.

End Doubles.


(* ================================================================== *)
(** * Transcript merging *)
(* ================================================================== *)

Section Merge.

Variables current incoming : string.

Lemma merge_empty : incoming = "" -> mergeTranscript current incoming = current.
Proof. intros ->. reflexivity. Qed.

Lemma merge_restated :
  leading current incoming -> mergeTranscript current incoming = incoming.
Proof.
  intros H. unfold mergeTranscript.
  destruct (JS.falsy incoming) eqn:E.
  - apply falsy_empty in E. subst incoming. now apply leading_empty in H.
  - apply startsWith_leading in H. now rewrite H.
Qed.

Lemma merge_stale :
  leading incoming current -> mergeTranscript current incoming = current.
Proof.
  intros H. unfold mergeTranscript.
  destruct (JS.falsy incoming); [reflexivity|].
  destruct (JS.startsWith incoming current) eqn:E.
  - apply startsWith_leading in E. now apply leading_antisym.
  - apply startsWith_leading in H. now rewrite H.
Qed.

Lemma merge_continuation :
  incoming <> "" -> ~ leading current incoming -> ~ leading incoming current ->
  mergeTranscript current incoming = current ++ incoming.
Proof.
  intros Hne H1 H2. unfold mergeTranscript.
  destruct (JS.falsy incoming) eqn:E; [now apply falsy_empty in E|].
  destruct (JS.startsWith incoming current) eqn:E1;
    [now apply startsWith_leading in E1|].
  destruct (JS.startsWith current incoming) eqn:E2;
    [now apply startsWith_leading in E2|].
  reflexivity.
Qed.

End Merge.

(** C2. [mergeTranscript current incoming] is [current] when [incoming]
    is empty, [incoming] when [current] is a leading substring of
    [incoming], [current] when [incoming] is a leading substring of
    [current], and [current ++ incoming] in every other case. *)
Theorem mergeTranscript_cases (current incoming : string) :
  (incoming = "" -> mergeTranscript current incoming = current)
  /\ (leading current incoming -> mergeTranscript current incoming = incoming)
  /\ (leading incoming current -> mergeTranscript current incoming = current)
  /\ (incoming <> "" -> ~ leading current incoming -> ~ leading incoming current ->
      mergeTranscript current incoming = current ++ incoming).
Proof.
  split; [|split; [|split]].
  - apply merge_empty.
  - apply merge_restated.
  - apply merge_stale.
  - apply merge_continuation.
Qed.

(** The four cases of C2 on concrete strings. *)
Lemma mergeTranscript_cases_witness :
  mergeTranscript "Hel" "" = "Hel"
  /\ mergeTranscript "Hel" "Hello" = "Hello"
  /\ mergeTranscript "Hello" "Hel" = "Hello"
  /\ mergeTranscript "Hello" " there" = "Hello there".
Proof.
  split; [|split; [|split]].
  - apply (proj1 (mergeTranscript_cases "Hel" "")). reflexivity.
  - apply (proj1 (proj2 (mergeTranscript_cases "Hel" "Hello"))).
    now exists "lo".
  - apply (proj1 (proj2 (proj2 (mergeTranscript_cases "Hello" "Hel")))).
    now exists "lo".
  - apply (proj2 (proj2 (proj2 (mergeTranscript_cases "Hello" " there")))).
    + discriminate.
    + intros [rest H]; discriminate.
    + intros [rest H]; discriminate.
Defined.

(** C9. The pending text is a leading substring of whatever it is
    merged into, and merging a text with itself gives it back. *)
Theorem mergeTranscript_extends :
  (forall current incoming, leading current (mergeTranscript current incoming))
  /\ (forall X, mergeTranscript X X = X).
Proof.
  split.
  - intros current incoming. unfold mergeTranscript.
    destruct (JS.falsy incoming); [apply leading_refl|].
    destruct (JS.startsWith incoming current) eqn:E;
      [now apply startsWith_leading|].
    destruct (JS.startsWith current incoming);
      [apply leading_refl | apply leading_append].
  - intros X. apply merge_restated, leading_refl.
Qed.

(* ================================================================== *)
(** * Turn commits *)
(* ================================================================== *)

Section TurnComplete.

Lemma merge_from_empty (t : string) : mergeTranscript "" t = t.
Proof. apply merge_restated. now exists t. Qed.

(** Pushing the commits only when there are some is pushing them. *)
Lemma push_when_nonempty {A} (log cs : list A) :
  (if (0 <? List.length cs)%nat then log ++ cs else log)%list = (log ++ cs)%list.
Proof. destruct cs; simpl; [now rewrite app_nil_r | reflexivity]. Qed.

Lemma onmessage_turnDone token env s :
  onmessage token env turnDone s = onTurnComplete env s.
Proof. reflexivity. Qed.

Lemma onmessage_wholeTurn token env u a s :
  onmessage token env (wholeTurn u a) s
  = onTurnComplete env (onOutputTranscription a (onInputTranscription u s)).
Proof. reflexivity. Qed.

Lemma isDuplicateTurn_true u a s :
  isDuplicateTurn u a s = true
  <-> u = lastCommittedInputRef s /\ a = lastCommittedOutputRef s.
Proof.
  unfold isDuplicateTurn. rewrite andb_true_iff, !String.eqb_eq. reflexivity.
Qed.

Lemma isDuplicateTurn_false u a s :
  isDuplicateTurn u a s = false
  <-> u <> lastCommittedInputRef s \/ a <> lastCommittedOutputRef s.
Proof.
  unfold isDuplicateTurn. rewrite andb_false_iff, !String.eqb_neq. reflexivity.
Qed.

(** What a turn-complete does to the two logs and to the last
    committed pair, in terms of the trimmed pending texts. *)
Lemma onTurnComplete_log env s :
  let u := JS.trim (currentInputText s) in
  let a := JS.trim (currentOutputText s) in
  let dup := isDuplicateTurn u a s in
  transcriptionRef (onTurnComplete env s)
  = (transcriptionRef s ++ commits env dup u a)%list
  /\ transcription (onTurnComplete env s)
     = (transcription s ++ commits env dup u a)%list
  /\ lastCommittedInputRef (onTurnComplete env s)
     = (if dup then lastCommittedInputRef s else u)
  /\ lastCommittedOutputRef (onTurnComplete env s)
     = (if dup then lastCommittedOutputRef s else a).
Proof.
  cbv zeta. unfold onTurnComplete; simpl.
  rewrite !push_when_nonempty. repeat split.
Qed.

Lemma onTurnComplete_pending env s :
  currentInputText (onTurnComplete env s) = ""
  /\ currentOutputText (onTurnComplete env s) = "".
Proof. split; reflexivity. Qed.

Lemma commits_nonempty env u a :
  u <> "" \/ a <> "" -> commits env false u a <> [].
Proof.
  unfold commits. intros [H|H]; apply truthy_nonempty in H; rewrite H.
  - discriminate.
  - destruct (JS.truthy u); discriminate.
Qed.

End TurnComplete.

(** C3. A turn-complete whose trimmed pending texts are the last
    committed pair appends nothing to the log and leaves the last
    committed pair as it is; hence a turn delivered twice in a row is
    logged by the first delivery only. *)
Theorem duplicate_turn_suppressed :
  (forall token env s,
      JS.trim (currentInputText s) = lastCommittedInputRef s ->
      JS.trim (currentOutputText s) = lastCommittedOutputRef s ->
      let s' := onmessage token env turnDone s in
      transcriptionRef s' = transcriptionRef s
      /\ transcription s' = transcription s
      /\ lastCommittedInputRef s' = lastCommittedInputRef s
      /\ lastCommittedOutputRef s' = lastCommittedOutputRef s)
  /\
  (forall token env1 env2 u a s,
      currentInputText s = "" ->
      currentOutputText s = "" ->
      let s1 := onmessage token env1 (wholeTurn u a) s in
      let s2 := onmessage token env2 (wholeTurn u a) s1 in
      transcriptionRef s1
      = (transcriptionRef s
         ++ commits env1 (isDuplicateTurn (JS.trim u) (JS.trim a) s)
              (JS.trim u) (JS.trim a))%list
      /\ transcriptionRef s2 = transcriptionRef s1
      /\ transcription s2 = transcription s1).
Proof.
  split.
  - intros token env s Hu Ha. cbv zeta. rewrite onmessage_turnDone.
    destruct (onTurnComplete_log env s) as (H1 & H2 & H3 & H4).
    assert (D : isDuplicateTurn (JS.trim (currentInputText s))
                  (JS.trim (currentOutputText s)) s = true)
      by now apply isDuplicateTurn_true.
    rewrite D in *. unfold commits in *. rewrite app_nil_r in *. auto.
  - intros token env1 env2 u a s Hu Ha. cbv zeta.
    rewrite !onmessage_wholeTurn.
    set (p := onOutputTranscription a (onInputTranscription u s)).
    assert (Pu : currentInputText p = u)
      by (simpl; rewrite Hu; apply merge_from_empty).
    assert (Pa : currentOutputText p = a)
      by (simpl; rewrite Ha; apply merge_from_empty).
    destruct (onTurnComplete_log env1 p) as (H1 & H2 & H3 & H4).
    rewrite Pu, Pa in *.
    set (s1 := onTurnComplete env1 p) in *.
    set (q := onOutputTranscription a (onInputTranscription u s1)).
    assert (Qu : currentInputText q = u) by (simpl; apply merge_from_empty).
    assert (Qa : currentOutputText q = a) by (simpl; apply merge_from_empty).
    destruct (onTurnComplete_log env2 q) as (K1 & K2 & _ & _).
    rewrite Qu, Qa in *.
    assert (D : isDuplicateTurn (JS.trim u) (JS.trim a) q = true).
    { apply isDuplicateTurn_true. change (lastCommittedInputRef q)
        with (lastCommittedInputRef s1).
      change (lastCommittedOutputRef q) with (lastCommittedOutputRef s1).
      rewrite H3, H4.
      destruct (isDuplicateTurn (JS.trim u) (JS.trim a) p) eqn:E.
      - now apply isDuplicateTurn_true in E.
      - split; reflexivity. }
    rewrite D in *. unfold commits in K1, K2. rewrite app_nil_r in *.
    split; [exact H1 | split; [exact K1 | exact K2]].
Qed.

(** "Hello" / "Hi" delivered twice to a session whose last committed
    pair is already that pair, and twice to a fresh one. *)
Lemma duplicate_turn_suppressed_witness :
  let env := {| dateNow := 1700; dateNowAgain := 1700; currentTime := 0 |} in
  let s1 := onmessage 1 env (wholeTurn "Hello" " Hi ") initial in
  let s2 := onmessage 1 env (wholeTurn "Hello" " Hi ") s1 in
  (transcriptionRef (onmessage 1 env turnDone
                       (onmessage 1 env (partialUser "Hello ")
                          (onmessage 1 env (partialModel "Hi") s1)))
   = transcriptionRef s1)
  /\ transcriptionRef s1
     = [ {| speaker := user; text := "Hello"; timestamp := 1700 |};
         {| speaker := model; text := "Hi"; timestamp := 1700 |} ]
  /\ transcriptionRef s2 = transcriptionRef s1.
Proof.
  cbv zeta. split; [|split].
  - set (env := {| dateNow := 1700; dateNowAgain := 1700; currentTime := 0 |}).
    set (s1 := onmessage 1 env (wholeTurn "Hello" " Hi ") initial).
    set (pre := onmessage 1 env (partialUser "Hello ")
                  (onmessage 1 env (partialModel "Hi") s1)).
    apply (proj1 (proj1 duplicate_turn_suppressed 1%Z env pre
                    eq_refl eq_refl)).
  - apply (proj1 (proj2 duplicate_turn_suppressed 1%Z
                    {| dateNow := 1700; dateNowAgain := 1700; currentTime := 0 |}
                    {| dateNow := 1700; dateNowAgain := 1700; currentTime := 0 |}
                    "Hello" " Hi " initial eq_refl eq_refl)).
  - apply (proj1 (proj2 (proj2 duplicate_turn_suppressed 1%Z
                    {| dateNow := 1700; dateNowAgain := 1700; currentTime := 0 |}
                    {| dateNow := 1700; dateNowAgain := 1700; currentTime := 0 |}
                    "Hello" " Hi " initial eq_refl eq_refl))).
Defined.

(** C10. A turn-complete with nothing but white space pending appends
    nothing and leaves the empty pair as the last committed one; a turn
    that then repeats the pair committed before is logged again. *)
Theorem empty_turn_resets_lastCommitted :
  forall token env s,
    JS.trim (currentInputText s) = "" ->
    JS.trim (currentOutputText s) = "" ->
    let s' := onmessage token env turnDone s in
    transcriptionRef s' = transcriptionRef s
    /\ transcription s' = transcription s
    /\ lastCommittedInputRef s' = ""
    /\ lastCommittedOutputRef s' = ""
    /\ (forall env' u a,
           JS.trim u = lastCommittedInputRef s ->
           JS.trim a = lastCommittedOutputRef s ->
           lastCommittedInputRef s <> "" \/ lastCommittedOutputRef s <> "" ->
           let s'' := onmessage token env' (wholeTurn u a) s' in
           isDuplicateTurn (JS.trim u) (JS.trim a) s' = false
           /\ commits env' false (JS.trim u) (JS.trim a) <> []
           /\ transcriptionRef s''
              = (transcriptionRef s'
                 ++ commits env' false (JS.trim u) (JS.trim a))%list
           /\ transcription s''
              = (transcription s'
                 ++ commits env' false (JS.trim u) (JS.trim a))%list).
Proof.
  intros token env s Hu Ha. cbv zeta. rewrite onmessage_turnDone.
  destruct (onTurnComplete_log env s) as (H1 & H2 & H3 & H4).
  rewrite Hu, Ha in *.
  assert (L : lastCommittedInputRef (onTurnComplete env s) = ""
              /\ lastCommittedOutputRef (onTurnComplete env s) = "").
  { rewrite H3, H4. destruct (isDuplicateTurn "" "" s) eqn:E.
    - apply isDuplicateTurn_true in E. destruct E; split; congruence.
    - split; reflexivity. }
  destruct L as [L1 L2].
  assert (C : commits env (isDuplicateTurn "" "" s) "" "" = [])
    by (unfold commits; destruct (isDuplicateTurn "" "" s); reflexivity).
  rewrite C, app_nil_r in H1, H2.
  repeat (split; [assumption|]).
  intros env' u a Eu Ea Hne.
  set (s' := onTurnComplete env s) in *.
  assert (D : isDuplicateTurn (JS.trim u) (JS.trim a) s' = false).
  { apply isDuplicateTurn_false. rewrite L1, L2, Eu, Ea. exact Hne. }
  split; [exact D|].
  split; [apply commits_nonempty; now rewrite Eu, Ea|].
  rewrite onmessage_wholeTurn.
  set (q := onOutputTranscription a (onInputTranscription u s')).
  assert (Qu : currentInputText q = u) by (simpl; apply merge_from_empty).
  assert (Qa : currentOutputText q = a) by (simpl; apply merge_from_empty).
  destruct (onTurnComplete_log env' q) as (K1 & K2 & _ & _).
  rewrite Qu, Qa in *.
  change (isDuplicateTurn (JS.trim u) (JS.trim a) q)
    with (isDuplicateTurn (JS.trim u) (JS.trim a) s') in *.
  rewrite D in *. split; assumption.
Qed.

(** "Hello" / "Hi" committed, then an empty turn, then "Hello" / "Hi"
    again: the pair is in the log twice. *)
Lemma empty_turn_resets_lastCommitted_witness :
  let env := {| dateNow := 1700; dateNowAgain := 1700; currentTime := 0 |} in
  let s := onmessage 1 env (partialUser "  ")
             (onmessage 1 env (wholeTurn "Hello" "Hi") initial) in
  let s' := onmessage 1 env turnDone s in
  let s'' := onmessage 1 env (wholeTurn "Hello" "Hi") s' in
  lastCommittedInputRef s = "Hello"
  /\ lastCommittedInputRef s' = ""
  /\ lastCommittedOutputRef s' = ""
  /\ transcriptionRef s' = transcriptionRef s
  /\ List.length (transcriptionRef s'') = 4%nat.
Proof.
  cbv zeta.
  set (env := {| dateNow := 1700; dateNowAgain := 1700; currentTime := 0 |}).
  set (s := onmessage 1 env (partialUser "  ")
              (onmessage 1 env (wholeTurn "Hello" "Hi") initial)).
  destruct (empty_turn_resets_lastCommitted 1%Z env s eq_refl eq_refl)
    as (H1 & _ & H3 & H4 & H5).
  destruct (H5 env "Hello" "Hi" eq_refl eq_refl
              (or_introl (fun E => eq_ind "Hello"
                 (fun t => match t with "" => False | _ => True end) I "" E)))
    as (_ & _ & K & _).
  split; [reflexivity|].
  split; [exact H3|]. split; [exact H4|]. split; [exact H1|].
  rewrite K. reflexivity.
Defined.

(* ================================================================== *)
(** * Playback scheduling *)
(* ================================================================== *)

Section Playback.

Lemma skipn_length_app {A} (l l' : list A) : skipn (List.length l) (l ++ l')%list = l'.
Proof. induction l as [|x l IH]; simpl; [reflexivity | exact IH]. Qed.

Lemma onmessage_audioChunk token env d s :
  onmessage token env (audioChunk d) s = enqueue env d s.
Proof. reflexivity. Qed.

Lemma onmessage_interruption token env s :
  onmessage token env interruption s = onInterrupted s.
Proof. reflexivity. Qed.

(** One chunk: the source it starts and the next start time. *)
Lemma enqueue_started env d s :
  let at_ := JS.Math_max (nextStartTimeRef s) (currentTime env) in
  let src := {| node := List.length (started s); when := at_; duration := d |} in
  started (enqueue env d s) = (started s ++ [src])%list
  /\ sourcesRef (enqueue env d s) = (sourcesRef s ++ [src])%list
  /\ nextStartTimeRef (enqueue env d s) = JS.add at_ d.
Proof. cbv zeta. repeat split. Qed.

Lemma isDouble_zero : JS.isDouble 0.
Proof. reflexivity. Qed.

(** Adding a duration to a start time that is a double: the sum the
    code gets is a double, not before the start time, and within half
    a unit in the last place of the exact sum. *)
Lemma add_duration (a d : Q) :
  0 <= a -> JS.isDouble a -> 0 <= d ->
  a <= JS.add a d
  /\ JS.isDouble (JS.add a d)
  /\ a + d - JS.ulp (a + d) / 2 <= JS.add a d.
Proof.
  intros Ha Da Hd. unfold JS.add. split; [|split].
  - apply nearestDouble_above; [exact Ha | exact Da | lra].
  - apply nearestDouble_isDouble. lra.
  - pose proof (nearestDouble_close (a + d)) as C.
    apply Qabs_Qle_condition in C. destruct C as [C _]. lra.
Qed.

(** A run of chunks that keeps ahead of playback, from a schedule that
    stands at a double. *)
Lemma enqueueAll_schedule (chunks : list (Q * Q)) :
  forall s,
    0 <= nextStartTimeRef s ->
    JS.isDouble (nextStartTimeRef s) ->
    keepsAhead (nextStartTimeRef s) chunks ->
    Forall (fun c => 0 <= snd c) chunks ->
    exists new,
      started (enqueueAll chunks s) = (started s ++ new)%list
      /\ map when new = backToBack (nextStartTimeRef s) (map snd chunks)
      /\ map duration new = map snd chunks
      /\ Forall (fun src => nextStartTimeRef s <= when src) new
      /\ overlapWithinRounding new
      /\ (exactSums (nextStartTimeRef s) (map snd chunks) -> noOverlap new).
Proof.
  induction chunks as [|[now d] rest IH]; intros s H0 HD Hk Hd.
  - exists []. simpl. rewrite app_nil_r.
    repeat split; try constructor.
  - destruct Hk as [Hnow Hk]. inversion Hd as [|c cs Hd1 Hrest]; subst.
    simpl in Hd1.
    set (env := {| dateNow := 0; dateNowAgain := 0; currentTime := now |}).
    destruct (enqueue_started env d s) as (E1 & _ & E3). cbv zeta in *.
    assert (M : JS.Math_max (nextStartTimeRef s) (currentTime env)
                = nextStartTimeRef s) by now apply Math_max_ahead.
    rewrite M in *.
    destruct (add_duration (nextStartTimeRef s) d H0 HD Hd1) as (A1 & A2 & A3).
    destruct (IH (enqueue env d s)) as (new & Hs & Hw & Hdur & Hlow & Hov & Hex);
      try (rewrite E3; assumption); try assumption.
    { rewrite E3. lra. }
    rewrite E3 in Hw, Hlow, Hex.
    exists ({| node := List.length (started s);
               when := nextStartTimeRef s; duration := d |} :: new).
    simpl. fold env. rewrite Hs, E1, <- app_assoc. simpl.
    split; [reflexivity|]. split; [now rewrite Hw|].
    split; [now rewrite Hdur|]. split; [|split].
    + constructor; [simpl; lra|].
      eapply Forall_impl; [|exact Hlow]. simpl. intros a Ha. lra.
    + split; [|exact Hov].
      eapply Forall_impl; [|exact Hlow]. simpl. intros a Ha. lra.
    + intros [X1 X2]. split; [|now apply Hex].
      unfold JS.isDouble in X1. unfold JS.add in Hlow.
      eapply Forall_impl; [|exact Hlow]. simpl. intros a Ha. lra.
Qed.

End Playback.

(** C4, as it fails. The doubles 0.1, 0.7 and 0.2: a chunk of 0.7 s
    handled while the clock reads 0.1, then one of 0.2 s. The second
    source starts at the double nearest to 0.1 + 0.7, which is 2^-55
    below that sum: not at the first start plus the first duration, and
    before the first source ends. *)
Lemma playback_overlap_by_rounding :
  let t0 := 3602879701896397 # 36028797018963968 in
  let d1 := 3152519739159347 # 4503599627370496 in
  let d2 := 3602879701896397 # 18014398509481984 in
  let new := newSources initial (enqueueAll [(t0, d1); (t0, d2)] initial) in
  nextStartTimeRef initial = 0
  /\ keepsAhead (JS.add (JS.Math_max 0 t0) d1) [(t0, d2)]
  /\ (exists first second,
         new = [first; second]
         /\ when first = JS.Math_max 0 t0
         /\ duration first = d1
         /\ when second == 7205759403792793 # 9007199254740992
         /\ when first + duration first - when second
            == 1 # 36028797018963968
         /\ ~ when second == when first + duration first)
  /\ ~ noOverlap new.
Proof.
  cbv zeta. split; [reflexivity|]. split.
  - simpl. split; [vm_compute; discriminate | exact I].
  - split.
    + eexists. eexists. split; [reflexivity|].
      split; [reflexivity|]. split; [reflexivity|].
      split; [vm_compute; reflexivity|].
      split; [vm_compute; reflexivity|].
      vm_compute. discriminate.
    + intros [H _]. inversion H as [|x l Hx _]; subst.
      vm_compute in Hx. apply Hx. reflexivity.
Qed.

(** C4, amended. [N] chunks of non-negative durations handled in a row
    from a schedule that stands at zero, the first while the clock
    reads the double [t0] and each later one before the clock has
    passed the next start time, all sums staying finite: the start
    times are [max(0, t0)], then each previous start plus the previous
    duration as the code adds doubles; the sources carry the durations
    in order; no two of them overlap by more than the rounding of one
    such addition, and none overlap when the additions are exact. *)
Theorem playback_contiguity :
  forall (t0 d1 : Q) (rest : list (Q * Q)) (s : State),
    nextStartTimeRef s = 0 ->
    JS.isDouble t0 ->
    keepsAhead (JS.add (JS.Math_max 0 t0) d1) rest ->
    Forall (fun c => 0 <= snd c) ((t0, d1) :: rest) ->
    finiteSums (JS.Math_max 0 t0) (d1 :: map snd rest) ->
    let s' := enqueueAll ((t0, d1) :: rest) s in
    let new := newSources s s' in
    started s' = (started s ++ new)%list
    /\ map when new = backToBack (JS.Math_max 0 t0) (d1 :: map snd rest)
    /\ map duration new = d1 :: map snd rest
    /\ overlapWithinRounding new
    /\ (exactSums (JS.Math_max 0 t0) (d1 :: map snd rest) -> noOverlap new).
Proof.
  intros t0 d1 rest s H0 Dt Hk Hd _. cbv zeta.
  inversion Hd as [|c cs Hd1 Hrest]; subst. simpl in Hd1.
  set (env := {| dateNow := 0; dateNowAgain := 0; currentTime := t0 |}).
  destruct (enqueue_started env d1 s) as (E1 & _ & E3). cbv zeta in *.
  rewrite H0 in E1, E3. simpl currentTime in *.
  set (at_ := JS.Math_max 0 t0) in *.
  assert (P0 : 0 <= at_) by apply Math_max_lower.
  assert (D0 : JS.isDouble at_).
  { unfold at_, JS.Math_max. destruct (Qlt_le_dec 0 t0);
      [exact Dt | exact isDouble_zero]. }
  destruct (add_duration at_ d1 P0 D0 Hd1) as (A1 & A2 & A3).
  destruct (enqueueAll_schedule rest (enqueue env d1 s))
    as (new & Hs & Hw & Hdur & Hlow & Hov & Hex);
    try (rewrite E3; assumption); try assumption.
  { rewrite E3. lra. }
  rewrite E3 in Hw, Hlow, Hex.
  set (src := {| node := List.length (started s); when := at_; duration := d1 |}) in *.
  assert (S : started (enqueueAll ((t0, d1) :: rest) s)
              = (started s ++ src :: new)%list).
  { simpl enqueueAll. fold env. rewrite Hs, E1, <- app_assoc. reflexivity. }
  assert (N : newSources s (enqueueAll ((t0, d1) :: rest) s) = src :: new).
  { unfold newSources. rewrite S. apply skipn_length_app. }
  rewrite N. split; [exact S|]. simpl.
  split; [now rewrite Hw|]. split; [now rewrite Hdur|]. split.
  - split; [|exact Hov].
    eapply Forall_impl; [|exact Hlow]. simpl. intros a Ha. lra.
  - intros [X1 X2]. split; [|now apply Hex].
    unfold JS.isDouble in X1. unfold JS.add in Hlow.
    eapply Forall_impl; [|exact Hlow]. simpl. intros a Ha. lra.
Qed.

(** Chunks of 0.5 s and 0.25 s handled back to back while the clock
    reads 2.0: they start at 2.0 and 2.5 and do not overlap; the next
    start time is 2.75. *)
Lemma playback_contiguity_witness :
  let s' := enqueueAll [(2, 1 # 2); (2, 1 # 4)] initial in
  map when (newSources initial s') = [JS.Math_max 0 2; JS.add (JS.Math_max 0 2) (1 # 2)]
  /\ JS.add (JS.Math_max 0 2) (1 # 2) == 5 # 2
  /\ noOverlap (newSources initial s')
  /\ nextStartTimeRef s' == 11 # 4.
Proof.
  cbv zeta.
  assert (T : JS.isDouble 2) by (vm_compute; reflexivity).
  assert (K : keepsAhead (JS.add (JS.Math_max 0 2) (1 # 2)) [(2, 1 # 4)]).
  { simpl. split; [|exact I]. vm_compute. discriminate. }
  assert (D : Forall (fun c : Q * Q => 0 <= snd c) [(2, 1 # 2); (2, 1 # 4)]).
  { repeat constructor; vm_compute; discriminate. }
  assert (F : finiteSums (JS.Math_max 0 2) (1 # 2 :: map snd [(2, 1 # 4)])).
  { simpl. repeat split; vm_compute; discriminate. }
  assert (X : exactSums (JS.Math_max 0 2) (1 # 2 :: map snd [(2, 1 # 4)])).
  { simpl. repeat split; vm_compute; reflexivity. }
  destruct (playback_contiguity 2 (1 # 2) [(2, 1 # 4)] initial eq_refl T K D F)
    as (_ & Hw & _ & _ & Hno).
  split; [exact Hw|]. split; [vm_compute; reflexivity|].
  split; [exact (Hno X)|]. vm_compute. reflexivity.
Defined.

(** C6. After the interruption block the live set is empty and the next
    start time is zero; the chunk handled next starts at the clock
    reading taken then, whatever the schedule was before. *)
Theorem flush_resets_schedule :
  forall token env s,
    let s' := onmessage token env interruption s in
    sourcesRef s' = []
    /\ nextStartTimeRef s' = 0
    /\ (forall env' d,
           0 <= currentTime env' ->
           let s'' := onmessage token env' (audioChunk d) s' in
           exists src,
             started s'' = (started s' ++ [src])%list
             /\ sourcesRef s'' = [src]
             /\ when src == currentTime env'
             /\ duration src = d
             /\ (Qabs (currentTime env' + d) <= JS.MAX_VALUE ->
                 nextStartTimeRef s'' = JS.add (when src) d
                 /\ Qabs (nextStartTimeRef s'' - (currentTime env' + d))
                    <= JS.ulp (when src + d) / 2)).
Proof.
  intros token env s. cbv zeta. rewrite onmessage_interruption.
  split; [reflexivity|]. split; [reflexivity|].
  intros env' d Hnow. rewrite onmessage_audioChunk.
  destruct (enqueue_started env' d (onInterrupted s)) as (E1 & E2 & E3).
  cbv zeta in *.
  change (nextStartTimeRef (onInterrupted s)) with 0 in E1, E2, E3.
  change (sourcesRef (onInterrupted s)) with (@nil AudioBufferSourceNode) in E2.
  eexists. split; [exact E1|]. split; [exact E2|]. cbn [when duration].
  pose proof (Math_max_zero (currentTime env') Hnow) as M.
  split; [exact M|]. split; [reflexivity|]. intros _. split; [exact E3|].
  rewrite E3.
  pose proof (nearestDouble_close (JS.Math_max 0 (currentTime env') + d)) as C.
  unfold JS.add.
  set (u := JS.ulp (JS.Math_max 0 (currentTime env') + d)) in *.
  assert (U : u / 2 == u * (1 # 2)) by (field; discriminate).
  rewrite U in *.
  apply Qabs_Qle_condition in C. apply Qabs_Qle_condition.
  destruct C as [C1 C2]. split; lra.
Qed.

(** A schedule that stood at 2.75 is interrupted; the chunk that comes
    when the clock reads 7 starts at 7. *)
Lemma flush_resets_schedule_witness :
  let before := enqueueAll [(2, 1 # 2); (2, 1 # 4)] initial in
  let s' := onmessage 1 {| dateNow := 0; dateNowAgain := 0; currentTime := 5 # 2 |} interruption before in
  let s'' := onmessage 1 {| dateNow := 0; dateNowAgain := 0; currentTime := 7 |} (audioChunk (1 # 4)) s' in
  nextStartTimeRef before == 11 # 4
  /\ sourcesRef s' = []
  /\ nextStartTimeRef s' = 0
  /\ exists src, sourcesRef s'' = [src] /\ when src == 7.
Proof.
  cbv zeta.
  set (before := enqueueAll [(2, 1 # 2); (2, 1 # 4)] initial).
  destruct (flush_resets_schedule 1%Z {| dateNow := 0; dateNowAgain := 0; currentTime := 5 # 2 |} before)
    as (H1 & H2 & H3).
  assert (P : 0 <= currentTime {| dateNow := 0; dateNowAgain := 0; currentTime := 7 |})
    by (vm_compute; discriminate).
  destruct (H3 {| dateNow := 0; dateNowAgain := 0; currentTime := 7 |} (1 # 4) P)
    as (src & _ & K2 & K3 & _).
  split; [vm_compute; reflexivity|]. split; [exact H1|]. split; [exact H2|].
  exists src. split; [exact K2 | exact K3].
Defined.

(* ================================================================== *)
(** * Microphone capture *)
(* ================================================================== *)

Section Capture.

Local Open Scope Z_scope.

(** Whatever is stored into an [Int16Array] is a 16-bit signed value. *)
Lemma ToInt16_range (q : Q) : -32768 <= JS.ToInt16 q <= 32767.
Proof.
  unfold JS.ToInt16. cbv zeta.
  pose proof (Z.mod_pos_bound (JS.truncate q) 65536 eq_refl) as B.
  destruct (32768 <=? JS.truncate q mod 65536) eqn:E.
  - apply Z.leb_le in E. lia.
  - apply Z.leb_gt in E. lia.
Qed.

(** A number whose integral part is a 16-bit signed value is stored
    as that integral part. *)
Lemma ToInt16_small (q : Q) :
  -32768 <= JS.truncate q <= 32767 -> JS.ToInt16 q = JS.truncate q.
Proof.
  intros H. unfold JS.ToInt16. cbv zeta.
  destruct (Z_lt_le_dec (JS.truncate q) 0) as [Hneg|Hpos].
  - assert (M : JS.truncate q mod 65536 = JS.truncate q + 65536).
    { symmetry. apply (Z.mod_unique _ _ (-1)); lia. }
    rewrite M. destruct (32768 <=? JS.truncate q + 65536) eqn:E.
    + lia.
    + apply Z.leb_gt in E. lia.
  - rewrite Z.mod_small by lia.
    destruct (32768 <=? JS.truncate q) eqn:E.
    + apply Z.leb_le in E. lia.
    + reflexivity.
Qed.

(** Truncation of [a / b] for [b > 0] between bounds on [a]. *)
Lemma quot_bounds (a b lo hi : Z) :
  0 < b -> lo <= 0 -> 0 < hi -> lo * b <= a -> a < hi * b ->
  lo <= Z.quot a b < hi.
Proof.
  intros Hb Hlo Hhi H1 H2.
  destruct (Z_lt_le_dec a 0) as [Hneg|Hpos].
  - split.
    + rewrite <- (Z.quot_mul lo b) by lia. apply Z.quot_le_mono; lia.
    + assert (Z.quot a b <= 0).
      { rewrite <- (Z.quot_0_l b) by lia. apply Z.quot_le_mono; lia. }
      lia.
  - split.
    + assert (0 <= Z.quot a b) by (apply Z.quot_pos; lia). lia.
    + apply Z.quot_lt_upper_bound; lia.
Qed.

(** Truncation moves a number by less than one. *)
Lemma truncate_close (q : Q) : (Qabs (inject_Z (JS.truncate q) - q) < 1)%Q.
Proof.
  destruct q as [a b]. apply Qabs_Qlt_condition.
  unfold JS.truncate, Qlt, Qminus, Qplus, Qopp, inject_Z; simpl.
  pose proof (Z.quot_rem' a (Zpos b)) as E.
  assert (B : Z.abs (Z.rem a (Zpos b)) < Zpos b).
  { pose proof (Z.rem_bound_abs a (Zpos b)). lia. }
  lia.
Qed.

(** Every element of the array handed to the encoder is a 16-bit
    signed value. *)
Lemma onaudioprocess_range (inputData : list Q) :
  Forall (fun v => -32768 <= v <= 32767) (onaudioprocess inputData).
Proof.
  unfold onaudioprocess, pcm16. apply Forall_forall. intros v Hv.
  apply in_map_iff in Hv. destruct Hv as (x & <- & _). apply ToInt16_range.
Qed.

End Capture.

(** C7, as it fails. A sample of 1 is stored as -32768, which is not
    1 * 32768; a sample of 2^-16 is stored as 0, which is not one
    half. *)
Lemma pcm16_not_scaled :
  (-1 <= 1 <= 1
   /\ pcm16 1 = (-32768)%Z
   /\ ~ inject_Z (pcm16 1) == 1 * 32768)
  /\
  (-1 <= 1 # 65536 <= 1
   /\ pcm16 (1 # 65536) = 0%Z
   /\ ~ inject_Z (pcm16 (1 # 65536)) == (1 # 65536) * 32768).
Proof.
  split; (split; [split; vm_compute; discriminate|]);
    (split; [reflexivity | vm_compute; discriminate]).
Qed.

(** C7, amended. For a sample [x] with [-1 <= x < 1] the value stored
    is [x * 32768] with its fraction dropped (rounded toward zero): it
    is within one of [x * 32768] and in the signed 16-bit range. *)
Theorem pcm16_truncates :
  forall x : Q,
    -1 <= x -> x < 1 ->
    pcm16 x = JS.truncate (x * 32768)
    /\ (-32768 <= pcm16 x <= 32767)%Z
    /\ Qabs (inject_Z (pcm16 x) - x * 32768) < 1.
Proof.
  intros x Hlo Hhi.
  assert (T : (-32768 <= JS.truncate (x * 32768) <= 32767)%Z).
  { destruct x as [a b]. unfold Qle, Qlt in *. simpl in *.
    unfold JS.truncate. simpl.
    assert (K : (-32768 <= Z.quot (a * 32768) (Z.pos (b * 1)) < 32768)%Z)
      by (apply quot_bounds; lia).
    lia. }
  assert (E : pcm16 x = JS.truncate (x * 32768))
    by (unfold pcm16; now apply ToInt16_small).
  rewrite E. split; [reflexivity|]. split; [exact T|].
  apply truncate_close.
Qed.

(** Samples 0.5, -1 and 0.3: stored as 16384, -32768 and 9830. *)
Lemma pcm16_truncates_witness :
  pcm16 (1 # 2) = 16384%Z
  /\ pcm16 (-1) = (-32768)%Z
  /\ pcm16 (3 # 10) = 9830%Z
  /\ Qabs (inject_Z (pcm16 (3 # 10)) - (3 # 10) * 32768) < 1.
Proof.
  assert (L : forall x, -1 <= x -> x < 1 ->
                pcm16 x = JS.truncate (x * 32768)
                /\ Qabs (inject_Z (pcm16 x) - x * 32768) < 1).
  { intros x H1 H2. destruct (pcm16_truncates x H1 H2) as (A & _ & C).
    split; assumption. }
  split; [|split; [|split]].
  - apply (L (1 # 2)); vm_compute; [discriminate | reflexivity].
  - apply (L (-1)); vm_compute; [discriminate | reflexivity].
  - apply (L (3 # 10)); vm_compute; [discriminate | reflexivity].
  - apply (L (3 # 10)); vm_compute; [discriminate | reflexivity].
Defined.

(* ================================================================== *)
(** * Session life cycle and the session token *)
(* ================================================================== *)

Section LifeCycle.

Lemma withToken_same s : withToken (sessionTokenRef s) s = s.
Proof. destruct s; reflexivity. Qed.

Lemma stopTrack_idem (stream : MediaStream) :
  map stopTrack (map stopTrack stream) = map stopTrack stream.
Proof. rewrite map_map. reflexivity. Qed.

(** A second [stopSession] moves the token and nothing else. *)
Lemma stopSession_twice s :
  stopSession (stopSession s)
  = withToken (sessionTokenRef (stopSession s) + 1) (stopSession s).
Proof.
  unfold stopSession, withToken; simpl. rewrite app_nil_r.
  destruct (streamRef s); simpl; [rewrite stopTrack_idem|]; reflexivity.
Qed.

(** The blocks of [onmessage] neither read nor write the token. *)
Lemma onInputTranscription_token e t s :
  onInputTranscription t (withToken e s) = withToken e (onInputTranscription t s).
Proof. reflexivity. Qed.

Lemma onOutputTranscription_token e t s :
  onOutputTranscription t (withToken e s) = withToken e (onOutputTranscription t s).
Proof. reflexivity. Qed.

Lemma onTurnComplete_token e env s :
  onTurnComplete env (withToken e s) = withToken e (onTurnComplete env s).
Proof. reflexivity. Qed.

Lemma enqueue_token e env d s :
  enqueue env d (withToken e s) = withToken e (enqueue env d s).
Proof. reflexivity. Qed.

Lemma onInterrupted_token e s :
  onInterrupted (withToken e s) = withToken e (onInterrupted s).
Proof. reflexivity. Qed.

Lemma onParts_token e env parts :
  forall s,
    onParts env parts (withToken e s)
    = match onParts env parts s with
      | Completed s' => Completed (withToken e s')
      | Aborted s' => Aborted (withToken e s')
      end.
Proof.
  induction parts as [|p parts IH]; intros s; simpl.
  - reflexivity.
  - destruct (inlineData p) as [[d|]|].
    + rewrite enqueue_token. apply IH.
    + reflexivity.
    + apply IH.
Qed.

(** When the token has moved on, the second block of [startSession]
    does not connect and writes the stream ref only. *)
Lemma startSession_acquired_stale token stream s :
  token <> sessionTokenRef s ->
  let '(opened, s') := startSession_acquired token stream s in
  opened = false
  /\ streamRef s' = Some stream
  /\ isActive s' = isActive s
  /\ sessionRef s' = sessionRef s
  /\ audioContextInRef s' = audioContextInRef s
  /\ audioContextOutRef s' = audioContextOutRef s
  /\ sessionTokenRef s' = sessionTokenRef s.
Proof.
  intros H. unfold startSession_acquired. cbv zeta.
  apply Z.eqb_neq in H. rewrite H. repeat split.
Qed.

End LifeCycle.

(** C8. A second [stopSession] leaves the session handle, the media
    stream, the live sources and the active flag as the first one left
    them; it closes no connection and stops no source. (The token is
    the one thing it moves.) *)
Theorem stopSession_idempotent :
  forall s,
    let s1 := stopSession s in
    let s2 := stopSession s1 in
    sessionRef s2 = sessionRef s1
    /\ streamRef s2 = streamRef s1
    /\ sourcesRef s2 = sourcesRef s1
    /\ isActive s2 = isActive s1
    /\ closed s2 = closed s1
    /\ halted s2 = halted s1
    /\ s2 = withToken (sessionTokenRef s1 + 1) s1.
Proof.
  intros s. cbv zeta. rewrite stopSession_twice. repeat split.
Qed.

(** C1, as it fails. A session ran with token 1 and was stopped, so the
    token is 2. Its callbacks still change the state: a partial
    transcript becomes the pending text and the caption, a
    turn-complete logs the pending text, an audio chunk is started and
    joins the live set, an interruption drops the pending model
    text. *)
Lemma stale_event_applied :
  let env := {| dateNow := 1700; dateNowAgain := 1700; currentTime := 3 |} in
  let s := stoppedSession in
  let heard := onmessage 1 env (partialUser "Hi") s in
  let said := onmessage 1 env (partialModel "Yo") s in
  sessionTokenRef s = 2%Z
  /\ (currentInputText s = "" /\ activeUserText s = "")
  /\ (currentInputText heard = "Hi" /\ activeUserText heard = "Hi")
  /\ transcriptionRef heard = []
  /\ transcriptionRef (onmessage 1 env turnDone heard)
     = [{| speaker := user; text := "Hi"; timestamp := 1700 |}]
  /\ sourcesRef s = []
  /\ sourcesRef (onmessage 1 env (audioChunk (1 # 2)) s)
     = [{| node := 0; when := 3; duration := 1 # 2 |}]
  /\ isModelSpeaking (onmessage 1 env (audioChunk (1 # 2)) s) = true
  /\ currentOutputText said = "Yo"
  /\ currentOutputText (onmessage 1 env interruption said) = "".
Proof. cbv zeta. repeat split. Qed.

(** C1, amended. A callback of [onmessage] acts the same whatever token
    it was created under and whatever the current token is, and it
    leaves the current token as it is. *)
Theorem onmessage_ignores_token :
  forall (token token' e : Z) env message s,
    onmessage token env message (withToken e s)
    = withToken e (onmessage token' env message s)
    /\ sessionTokenRef (onmessage token env message s) = sessionTokenRef s.
Proof.
  assert (K : forall token token' e env message s,
             onmessage token env message (withToken e s)
             = withToken e (onmessage token' env message s)).
  { intros token token' e env [[content|]] s; unfold onmessage; simpl;
      [|reflexivity].
    destruct content as [i o t m x]; simpl.
    destruct i as [i|]; simpl; [rewrite onInputTranscription_token|];
      (destruct o as [o|]; simpl; [rewrite onOutputTranscription_token|]);
      (destruct t; simpl; [rewrite onTurnComplete_token|]);
      (destruct m as [m|]; simpl;
       [rewrite onParts_token;
        match goal with |- context [onParts env m ?z] =>
          destruct (onParts env m z) end|]);
      destruct x; reflexivity. }
  intros token token' e env message s. split; [apply K|].
  rewrite <- (withToken_same s) at 1. rewrite (K token token). reflexivity.
Qed.

(** C5, on the code. A start is overtaken by a stop while the
    microphone is being acquired. The start does not connect, and the
    session handle and the active flag are as at mount; but both audio
    contexts and the acquired stream, its track live, are in the refs,
    which held nothing at mount. *)
Theorem overtaken_start_keeps_media :
  let '(opened, s) := overtakenStart in
  opened = false
  /\ sessionRef s = sessionRef initial
  /\ isActive s = isActive initial
  /\ streamRef initial = None
  /\ streamRef s = Some [{| live := true |}]
  /\ audioContextInRef initial = None
  /\ audioContextInRef s = Some {| sampleRate := 16000 |}
  /\ audioContextOutRef initial = None
  /\ audioContextOutRef s = Some {| sampleRate := 24000 |}.
Proof. vm_compute. repeat split. Qed.

(* ================================================================== *)
(** * Scenarios *)
(* ================================================================== *)

(** "Hel", then "Hello" from the user, "Hi" from the model, then
    turn-complete: two segments in the log, nothing pending. *)
Example scenario_hello :
  let env := {| dateNow := 1700; dateNowAgain := 1700; currentTime := 0 |} in
  let s := onmessage 1 env turnDone
             (onmessage 1 env (partialModel "Hi")
                (onmessage 1 env (partialUser "Hello")
                   (onmessage 1 env (partialUser "Hel") initial))) in
  transcriptionRef s
  = [ {| speaker := user; text := "Hello"; timestamp := 1700 |};
      {| speaker := model; text := "Hi"; timestamp := 1700 |} ]
  /\ transcription s = transcriptionRef s
  /\ currentInputText s = ""
  /\ currentOutputText s = "".
Proof. cbv zeta. repeat split. Qed.

(** A source that ends leaves the live set; the schedule is as it was. *)
Example scenario_ended :
  let s := enqueueAll [(2, 1 # 2); (2, 3 # 10)] initial in
  map node (sourcesRef (onended 0 s)) = [1%nat]
  /\ nextStartTimeRef (onended 0 s) = nextStartTimeRef s.
Proof. cbv zeta. split; reflexivity. Qed.

(** A start that nothing overtakes: the session is active and holds the
    connection; the connection closing clears the active flag only. *)
Example scenario_start :
  let '(token, s1) := startSession_begin initial in
  let '(opened, s2) := startSession_acquired token [{| live := true |}] s1 in
  let s3 := startSession_connected token {| connection := 0 |} s2 in
  opened = true
  /\ isActive s3 = true
  /\ sessionRef s3 = Some {| connection := 0 |}
  /\ closed s3 = []
  /\ isActive (onclose s3) = false
  /\ sessionRef (onclose s3) = sessionRef s3.
Proof. vm_compute. repeat split. Qed.

(* ================================================================== *)
(** * Invariants of runs *)
(* ================================================================== *)

(** A property kept by every synchronous block is kept by every event
    and every run. [ok] is what the property asks of buffer durations. *)
Section Preservation.

Variable P : State -> Prop.
Variable ok : Q -> Prop.

Hypothesis keep_input : forall t s, P s -> P (onInputTranscription t s).
Hypothesis keep_output : forall t s, P s -> P (onOutputTranscription t s).
Hypothesis keep_turn : forall env s, P s -> P (onTurnComplete env s).
Hypothesis keep_begin : forall env s, P s -> P (enqueue_begin env s).
Hypothesis keep_finish : forall d s, ok d -> P s -> P (enqueue_finish d s).
Hypothesis keep_interrupted : forall s, P s -> P (onInterrupted s).
Hypothesis keep_ended : forall n s, P s -> P (onended n s).
Hypothesis keep_close : forall s, P s -> P (onclose s).
Hypothesis keep_stop : forall s, P s -> P (stopSession s).
Hypothesis keep_start : forall s, P s -> P (snd (startSession_begin s)).
Hypothesis keep_acquired :
  forall token stream s, P s -> P (snd (startSession_acquired token stream s)).
Hypothesis keep_connected :
  forall token session s, P s -> P (startSession_connected token session s).

Lemma onParts_preserves env parts :
  forall s,
    Forall ok (partDurations parts) -> P s ->
    match onParts env parts s with
    | Completed s' => P s'
    | Aborted s' => P s'
    end.
Proof.
  induction parts as [|p parts IH]; intros s Hd Hs; simpl.
  - exact Hs.
  - unfold partDurations in Hd. simpl in Hd.
    destruct (inlineData p) as [[d|]|].
    + simpl in Hd. inversion Hd; subst. apply IH; [assumption|].
      unfold enqueue. auto.
    + auto.
    + apply IH; assumption.
Qed.

Lemma onmessage_preserves token env message s :
  Forall ok (durationsOf (Message token env message)) ->
  P s -> P (onmessage token env message s).
Proof.
  destruct message as [[content|]]; unfold onmessage; simpl; [|auto].
  destruct content as [i o t m x]; simpl. intros Hd Hs.
  assert (H1 : P (whenPresent i onInputTranscription s))
    by (destruct i; simpl; auto).
  assert (H2 : P (whenPresent o onOutputTranscription
                    (whenPresent i onInputTranscription s)))
    by (destruct o; simpl; auto).
  set (s2 := whenPresent o onOutputTranscription
               (whenPresent i onInputTranscription s)) in *.
  assert (H3 : P (whenSet t (onTurnComplete env) s2))
    by (destruct t; simpl; auto).
  set (s3 := whenSet t (onTurnComplete env) s2) in *.
  destruct m as [parts|].
  - pose proof (onParts_preserves env parts s3 Hd H3) as H4.
    destruct (onParts env parts s3) as [s4|s4]; [|exact H4].
    destruct x; simpl; auto.
  - destruct x; simpl; auto.
Qed.

Lemma handle_preserves e s : Forall ok (durationsOf e) -> P s -> P (handle e s).
Proof.
  destruct e; intros Hd Hs; cbn [handle]; auto.
  - apply onmessage_preserves; assumption.
  - cbn [durationsOf] in Hd. inversion Hd; subst. auto.
Qed.

Lemma run_preserves events :
  forall s,
    Forall (fun e => Forall ok (durationsOf e)) events ->
    P s -> P (run events s).
Proof.
  unfold run. induction events as [|e events IH]; intros s Hd Hs; simpl.
  - exact Hs.
  - inversion Hd; subst. apply IH; [assumption|].
    apply handle_preserves; assumption.
Qed.

End Preservation.

Section Runs.

Lemma durations_unconstrained events :
  Forall (fun e => Forall (fun _ : Q => True) (durationsOf e)) events.
Proof.
  apply Forall_forall. intros e _. apply Forall_forall. intros d _. exact I.
Qed.

Lemma run_app events1 events2 s :
  run (events1 ++ events2) s = run events2 (run events1 s).
Proof. unfold run. apply fold_left_app. Qed.

End Runs.

(** A tactic for the frame cases: the block leaves alone the fields the
    property reads. *)
Ltac frame_case :=
  intros; cbv beta in *;
  repeat match goal with
         | |- context [startSession_acquired ?t ?st ?s] =>
             unfold startSession_acquired
         | |- context [startSession_begin ?s] => unfold startSession_begin
         end;
  simpl in *; auto.

(* ------------------------------------------------------------------ *)
(** ** What is shown and what is kept *)

Section Shown.

Lemma trimStart_head (s : string) :
  JS.trimStart s = ""
  \/ exists c r, JS.trimStart s = String c r /\ JS.isWhiteSpace c = false.
Proof.
  induction s as [|c s IH]; simpl; [now left|].
  destruct (JS.isWhiteSpace c) eqn:E; [exact IH|].
  right. now exists c, s.
Qed.

Lemma trimEnd_idem (s : string) : JS.trimEnd (JS.trimEnd s) = JS.trimEnd s.
Proof.
  induction s as [|c s IH]; simpl; [reflexivity|].
  destruct (JS.isWhiteSpace c && JS.falsy (JS.trimEnd s)) eqn:E;
    [reflexivity|].
  simpl. rewrite IH, E. reflexivity.
Qed.

Lemma trim_idem (s : string) : JS.trim (JS.trim s) = JS.trim s.
Proof.
  unfold JS.trim. destruct (trimStart_head s) as [E|(c & r & E & W)]; rewrite E.
  - reflexivity.
  - simpl. rewrite W. simpl. rewrite W. simpl. rewrite W. simpl.
    now rewrite trimEnd_idem.
Qed.

Lemma commits_clean env dup u a :
  Forall (fun item => text item <> "" /\ JS.trim (text item) = text item)
    (commits env dup (JS.trim u) (JS.trim a)).
Proof.
  unfold commits. destruct dup; [constructor|].
  apply Forall_app. split.
  - destruct (JS.truthy (JS.trim u)) eqn:E; constructor; [|constructor].
    simpl. split; [now apply truthy_nonempty | apply trim_idem].
  - destruct (JS.truthy (JS.trim a)) eqn:E; constructor; [|constructor].
    simpl. split; [now apply truthy_nonempty | apply trim_idem].
Qed.

Lemma onTurnComplete_mirrored env s : mirrored s -> mirrored (onTurnComplete env s).
Proof.
  intros (H1 & _ & _). unfold mirrored, onTurnComplete; simpl.
  rewrite H1. repeat split.
Qed.

Lemma onTurnComplete_clean env s : cleanLog s -> cleanLog (onTurnComplete env s).
Proof.
  unfold cleanLog. intros H.
  destruct (onTurnComplete_log env s) as (E & _). cbv zeta in E. rewrite E.
  apply Forall_app. split; [exact H | apply commits_clean].
Qed.

End Shown.

(** X1. In every state the component can reach, the committed list
    shown is the list in the ref (the one handed over at the end of
    the session), and the two captions are the two pending texts. *)
Theorem run_mirrored : forall events, mirrored (run events initial).
Proof.
  intros events.
  apply run_preserves with (ok := fun _ => True);
    try (apply durations_unconstrained);
    try (repeat split; reflexivity);
    try (intros; apply onTurnComplete_mirrored; assumption);
    try (unfold mirrored; frame_case; fail).
  - intros t s (H1 & H2 & H3). unfold mirrored; simpl. auto.
  - intros t s (H1 & H2 & H3). unfold mirrored; simpl. auto.
  - intros s (H1 & H2 & H3). unfold mirrored; simpl. auto.
Qed.

(** X2. The committed log only grows: whatever happens, the log as it
    stood is the leading part of the log afterwards. *)
Theorem log_append_only :
  forall events s,
    exists new, transcriptionRef (run events s) = (transcriptionRef s ++ new)%list.
Proof.
  intros events s.
  apply run_preserves
    with (ok := fun _ => True)
         (P := fun s' => exists new,
                   transcriptionRef s' = (transcriptionRef s ++ new)%list);
    try (apply durations_unconstrained);
    try (frame_case; fail).
  - intros env s' (new & H).
    destruct (onTurnComplete_log env s') as (E & _). cbv zeta in E.
    rewrite E, H, <- app_assoc. eexists. reflexivity.
  - exists []. now rewrite app_nil_r.
Qed.

(** X3. Every item the component can have committed carries a text that
    is not empty and has no white space at either end. *)
Theorem run_cleanLog : forall events, cleanLog (run events initial).
Proof.
  intros events.
  apply run_preserves with (ok := fun _ => True);
    try (apply durations_unconstrained);
    try (intros; apply onTurnComplete_clean; assumption);
    try (unfold cleanLog; frame_case; fail).
Qed.

(* ------------------------------------------------------------------ *)
(** ** The token and the life cycle *)

Section Token.

Lemma onmessage_resources token env message s :
  resources (onmessage token env message s) = resources s.
Proof.
  apply onmessage_preserves
    with (ok := fun _ => True)
         (P := fun s' => resources s' = resources s);
    try (intros; assumption); try reflexivity.
  apply Forall_forall. intros d _. exact I.
Qed.

Lemma handle_inSession e s :
  inSession e = true -> resources (handle e s) = resources s.
Proof.
  destruct e; simpl; intros H; try discriminate; try reflexivity.
  apply onmessage_resources.
Qed.

Lemma handle_token e s :
  sessionTokenRef (handle e s)
  = (sessionTokenRef s + (if takesToken e then 1 else 0))%Z.
Proof.
  destruct e; simpl; try lia.
  pose proof (onmessage_resources token env message s) as H.
  unfold resources in H. injection H as _ _ _ _ _ H. lia.
Qed.

Lemma bumps_cons e events :
  bumps (e :: events) = ((if takesToken e then 1 else 0) + bumps events)%nat.
Proof. unfold bumps. simpl. destruct (takesToken e); reflexivity. Qed.

Lemma run_token events :
  forall s,
    sessionTokenRef (run events s)
    = (sessionTokenRef s + Z.of_nat (bumps events))%Z.
Proof.
  induction events as [|e events IH]; intros s.
  - simpl. unfold bumps. simpl. lia.
  - change (run (e :: events) s) with (run events (handle e s)).
    rewrite IH, handle_token, bumps_cons. destruct (takesToken e); lia.
Qed.

Lemma run_inSession events :
  forall s, forallb inSession events = true ->
            resources (run events s) = resources s.
Proof.
  induction events as [|e events IH]; intros s H; [reflexivity|].
  simpl in H. apply andb_true_iff in H. destruct H as [He Hr].
  change (run (e :: events) s) with (run events (handle e s)).
  rewrite IH by assumption. now apply handle_inSession.
Qed.

End Token.

(** X4. The session token counts the starts and stops: after any run it
    is the token before plus the number of [startSession] entries and
    [stopSession] calls in the run; so it never goes down, and nothing
    else moves it. *)
Theorem token_counts_starts_and_stops :
  forall events s,
    sessionTokenRef (run events s)
    = (sessionTokenRef s + Z.of_nat (bumps events))%Z
    /\ (sessionTokenRef s <= sessionTokenRef (run events s))%Z.
Proof.
  intros events s. pose proof (run_token events s) as H. split; lia.
Qed.

(** X5. Messages, decoder completions, ended sources and the close of
    the connection never touch the session handle, the microphone
    stream, the audio contexts or the token, and never close a
    connection. *)
Theorem inSession_events_keep_resources :
  forall events s,
    forallb inSession events = true ->
    sessionRef (run events s) = sessionRef s
    /\ streamRef (run events s) = streamRef s
    /\ audioContextInRef (run events s) = audioContextInRef s
    /\ audioContextOutRef (run events s) = audioContextOutRef s
    /\ closed (run events s) = closed s
    /\ sessionTokenRef (run events s) = sessionTokenRef s.
Proof.
  intros events s H. pose proof (run_inSession events s H) as E.
  unfold resources in E. injection E as E1 E2 E3 E4 E5 E6. auto 10.
Qed.

(** A turn, an audio chunk and an interruption on a connected session. *)
Lemma inSession_events_keep_resources_witness :
  let env := {| dateNow := 1700; dateNowAgain := 1700; currentTime := 3 |} in
  let events := [ Message 1 env (wholeTurn "Hello" "Hi");
                  Message 1 env (audioChunk (1 # 2));
                  Message 1 env interruption; Ended 0; Close ] in
  let s := run [StartBegin; StartAcquired 1 [{| live := true |}];
                StartConnected 1 {| connection := 0 |}] initial in
  sessionRef (run events s) = Some {| connection := 0 |}
  /\ streamRef (run events s) = Some [{| live := true |}]
  /\ closed (run events s) = [].
Proof.
  cbv zeta.
  set (env := {| dateNow := 1700; dateNowAgain := 1700; currentTime := 3 |}).
  set (events := [ Message 1 env (wholeTurn "Hello" "Hi");
                   Message 1 env (audioChunk (1 # 2));
                   Message 1 env interruption; Ended 0; Close ]).
  set (s := run [StartBegin; StartAcquired 1 [{| live := true |}];
                 StartConnected 1 {| connection := 0 |}] initial).
  destruct (inSession_events_keep_resources events s eq_refl)
    as (H1 & H2 & _ & _ & H5 & _).
  rewrite H1, H2, H5. repeat split.
Defined.

(** X6. A start that a stop or another start has overtaken, however
    much later its microphone or its connection arrives: it does not
    connect and does not mark the session active, and the connection
    it is handed is closed at once and not kept. *)
Theorem overtaken_start_is_dropped :
  forall s events stream session,
    (0 < bumps events)%nat ->
    let '(token, s1) := startSession_begin s in
    let s' := run events s1 in
    fst (startSession_acquired token stream s') = false
    /\ isActive (snd (startSession_acquired token stream s')) = isActive s'
    /\ sessionRef (startSession_connected token session s') = sessionRef s'
    /\ closed (startSession_connected token session s')
       = (closed s' ++ [session])%list.
Proof.
  intros s events stream session Hb.
  unfold startSession_begin. cbv zeta.
  match goal with |- context [run events ?x] => set (s1 := x) end.
  pose proof (run_token events s1) as T. simpl sessionTokenRef in T.
  assert (N : ((sessionTokenRef s + 1 =? sessionTokenRef (run events s1)) = false)%Z)
    by (apply Z.eqb_neq; lia).
  unfold startSession_acquired, startSession_connected; simpl.
  rewrite N. repeat split.
Qed.

(** A start overtaken by a stop, with a message in between. *)
Lemma overtaken_start_is_dropped_witness :
  let s' := run [StartBegin; Message 1 {| dateNow := 0; dateNowAgain := 0; currentTime := 0 |} turnDone;
                 Stop] initial in
  fst (startSession_acquired 1 [{| live := true |}] s') = false
  /\ closed (startSession_connected 1 {| connection := 0 |} s')
     = [{| connection := 0 |}].
Proof.
  cbv zeta.
  assert (B : (0 < bumps [Message 1 {| dateNow := 0; dateNowAgain := 0; currentTime := 0 |} turnDone;
                          Stop])%nat) by (vm_compute; lia).
  pose proof (overtaken_start_is_dropped initial _ [{| live := true |}]
                {| connection := 0 |} B) as H.
  unfold startSession_begin in H. cbv zeta in H.
  destruct H as (H1 & _ & _ & H4).
  split; [exact H1 | exact H4].
Defined.

(** X7. A start that nothing overtakes, whatever messages come in
    meanwhile: it connects and keeps the connection and the stream; the
    stop that follows closes that connection, ends every track of the
    stream, empties the live set and clears the active flag. *)
Theorem start_then_stop_releases :
  forall s events1 events2 events3 stream session,
    forallb inSession events1 = true ->
    forallb inSession events2 = true ->
    forallb inSession events3 = true ->
    let '(token, s1) := startSession_begin s in
    let '(opened, s3) := startSession_acquired token stream (run events1 s1) in
    let s5 := startSession_connected token session (run events2 s3) in
    let s6 := run events3 s5 in
    let s7 := stopSession s6 in
    opened = true
    /\ isActive s3 = true
    /\ sessionRef s6 = Some session
    /\ streamRef s6 = Some stream
    /\ sessionRef s7 = None
    /\ closed s7 = (closed s ++ [session])%list
    /\ streamRef s7 = Some (map stopTrack stream)
    /\ sourcesRef s7 = []
    /\ isActive s7 = false.
Proof.
  intros s events1 events2 events3 stream session H1 H2 H3.
  unfold startSession_begin. cbv zeta.
  match goal with |- context [run events1 ?x] => set (s1 := x) end.
  pose proof (run_inSession events1 s1 H1) as E1.
  unfold resources in E1. injection E1 as _ _ _ _ C1 T1.
  change (closed s1) with (closed s) in C1.
  change (sessionTokenRef s1) with (sessionTokenRef s + 1)%Z in T1.
  unfold startSession_acquired. cbv zeta. cbv beta iota.
  rewrite T1, Z.eqb_refl.
  match goal with |- context [run events2 ?x] => set (s3 := x) end.
  pose proof (run_inSession events2 s3 H2) as E2.
  unfold resources in E2. injection E2 as _ S2 _ _ C2 T2.
  change (streamRef s3) with (Some stream) in S2.
  change (closed s3) with (closed (run events1 s1)) in C2.
  change (sessionTokenRef s3) with (sessionTokenRef s + 1)%Z in T2.
  set (s5 := startSession_connected (sessionTokenRef s + 1) session
               (run events2 s3)).
  assert (K : sessionRef s5 = Some session /\ closed s5 = closed s
              /\ streamRef s5 = Some stream).
  { unfold s5, startSession_connected; cbn [sessionRef closed streamRef].
    rewrite T2, Z.eqb_refl, S2, C2, C1. repeat split. }
  destruct K as (K1 & K2 & K3).
  pose proof (run_inSession events3 s5 H3) as E3.
  unfold resources in E3. injection E3 as R3 S3 _ _ C3 _.
  rewrite T2, Z.eqb_refl in R3, C3. rewrite S2 in S3. rewrite C2, C1 in C3.
  split; [reflexivity|]. split; [reflexivity|].
  split; [exact R3|]. split; [exact S3|].
  unfold stopSession; cbn [sessionRef closed streamRef sourcesRef isActive].
  rewrite R3, S3, C3.
  repeat split.
Qed.

(** A start, a turn, a stop. *)
Lemma start_then_stop_releases_witness :
  let s := run [StartBegin; StartAcquired 1 [{| live := true |}];
                StartConnected 1 {| connection := 0 |};
                Message 1 {| dateNow := 0; dateNowAgain := 0; currentTime := 0 |}
                  (wholeTurn "Hello" "Hi");
                Stop] initial in
  sessionRef s = None
  /\ closed s = [{| connection := 0 |}]
  /\ streamRef s = Some [{| live := false |}]
  /\ isActive s = false.
Proof.
  cbv zeta.
  pose proof (start_then_stop_releases initial [] []
                [Message 1 {| dateNow := 0; dateNowAgain := 0; currentTime := 0 |}
                   (wholeTurn "Hello" "Hi")]
                [{| live := true |}] {| connection := 0 |}
                eq_refl eq_refl eq_refl) as H.
  unfold startSession_begin, startSession_acquired in H. cbv zeta in H.
  destruct H as (_ & _ & _ & _ & H5 & H6 & H7 & _ & H9).
  split; [exact H5|]. split; [exact H6|]. split; [exact H7 | exact H9].
Defined.

(* ------------------------------------------------------------------ *)
(** ** The live set and the schedule *)

Section LiveSet.

(** Filtering a tail keeps a list free of repetitions. *)
Lemma NoDup_filter_tail {A B} (g : A -> B) (f : A -> bool) (l : list A) :
  forall a, NoDup (a ++ map g l) -> NoDup (a ++ map g (filter f l)).
Proof.
  induction l as [|x l IH]; intros a H; simpl in *; [exact H|].
  destruct (f x); simpl.
  - change (a ++ g x :: map g (filter f l))%list
      with (a ++ [g x] ++ map g (filter f l))%list.
    rewrite app_assoc. apply IH. rewrite <- app_assoc. exact H.
  - apply IH. now apply NoDup_remove_1 in H.
Qed.

Lemma Forall_filter_tail {A B} (Q : B -> Prop) (g : A -> B) (f : A -> bool)
      (l : list A) (a : list B) :
  Forall Q (a ++ map g l) -> Forall Q (a ++ map g (filter f l)).
Proof.
  intros H. apply Forall_app in H. destruct H as [Ha Hl].
  apply Forall_app. split; [exact Ha|].
  apply Forall_forall. intros y Hy. apply in_map_iff in Hy.
  destruct Hy as (x & <- & Hx). apply filter_In in Hx.
  rewrite Forall_forall in Hl. apply Hl. apply in_map. tauto.
Qed.

Lemma enqueue_finish_booked d s : booked s -> booked (enqueue_finish d s).
Proof.
  intros (Hn & Hb & Hi & Hs). unfold booked; simpl.
  rewrite !map_app, !length_app. simpl. rewrite app_assoc.
  split; [|split; [|split]].
  - apply NoDup_rev in Hn.
    rewrite <- (rev_involutive ((halted s ++ map node (sourcesRef s)) ++ _)).
    apply NoDup_rev. rewrite rev_app_distr. simpl. constructor; [|exact Hn].
    intros Hin. apply in_rev in Hin. rewrite Forall_forall in Hb.
    apply Hb in Hin. lia.
  - apply Forall_app. split.
    + eapply Forall_impl; [|exact Hb]. simpl. intros; lia.
    + constructor; [lia | constructor].
  - intros x Hx. apply in_app_iff in Hx. apply in_app_iff.
    destruct Hx as [Hx|Hx]; [left; now apply Hi | now right].
  - rewrite seq_app, Hs. reflexivity.
Qed.

Lemma onended_booked n s : booked s -> booked (onended n s).
Proof.
  intros (Hn & Hb & Hi & Hs). unfold booked; simpl.
  split; [now apply NoDup_filter_tail|].
  split; [now apply Forall_filter_tail|]. split; [|exact Hs].
  intros x Hx. apply filter_In in Hx. apply Hi. tauto.
Qed.

Lemma flush_booked (s : State) :
  booked s ->
  NoDup ((halted s ++ map node (sourcesRef s)) ++ [])
  /\ Forall (fun n => (n < List.length (started s))%nat)
       ((halted s ++ map node (sourcesRef s)) ++ [])
  /\ incl [] (started s)
  /\ map node (started s) = seq 0 (List.length (started s)).
Proof.
  intros (Hn & Hb & Hi & Hs). rewrite app_nil_r.
  split; [exact Hn|]. split; [exact Hb|]. split; [|exact Hs].
  intros x [].
Qed.

Lemma run_booked events : booked (run events initial).
Proof.
  apply run_preserves with (ok := fun _ => True);
    try (apply durations_unconstrained);
    try (intros; apply enqueue_finish_booked; assumption);
    try (intros; apply onended_booked; assumption);
    try (unfold booked; frame_case; fail).
  - intros s H. apply flush_booked in H. exact H.
  - intros s H. apply flush_booked in H. exact H.
  - unfold booked; simpl. split; [constructor|]. split; [constructor|].
    split; [intros x []|reflexivity].
Qed.

End LiveSet.

(* ------------------------------------------------------------------ *)
(** ** The schedule under interleaving *)

Section Schedule.

Lemma overlapWithinRounding_snoc (l : list AudioBufferSourceNode)
      (x : AudioBufferSourceNode) :
  overlapWithinRounding l ->
  Forall (fun src => when src + duration src
                     - JS.ulp (when src + duration src) / 2 <= when x) l ->
  overlapWithinRounding (l ++ [x]).
Proof.
  induction l as [|a l IH]; intros Hn Hb; simpl.
  - split; constructor.
  - destruct Hn as [Ha Hl]. inversion Hb as [|? ? Hax Hlx]; subst. split.
    + apply Forall_app. split; [exact Ha|]. constructor; [exact Hax|constructor].
    + apply IH; assumption.
Qed.

Lemma Forall_filter {A} (Q : A -> Prop) (f : A -> bool) (l : list A) :
  Forall Q l -> Forall Q (filter f l).
Proof.
  intros H. apply Forall_forall. intros x Hx. apply filter_In in Hx.
  rewrite Forall_forall in H. now apply H.
Qed.

Lemma overlapWithinRounding_filter (f : AudioBufferSourceNode -> bool) l :
  overlapWithinRounding l -> overlapWithinRounding (filter f l).
Proof.
  induction l as [|a l IH]; intros Hn; simpl; [exact I|].
  destruct Hn as [Ha Hl]. destruct (f a); simpl; [|now apply IH].
  split; [now apply Forall_filter | now apply IH].
Qed.

Lemma isDouble_max (a b : Q) :
  JS.isDouble a -> JS.isDouble b -> JS.isDouble (JS.Math_max a b).
Proof. intros Ha Hb. unfold JS.Math_max. now destruct (Qlt_le_dec a b). Qed.

Lemma enqueue_begin_kept env s :
  JS.isDouble (currentTime env) ->
  scheduleKept s -> scheduleKept (enqueue_begin env s).
Proof.
  intros Hc (Hn & Hb & H0 & HD). unfold scheduleKept.
  cbn [enqueue_begin sourcesRef nextStartTimeRef].
  pose proof (Math_max_lower (nextStartTimeRef s) (currentTime env)) as M.
  split; [exact Hn|]. split; [|split; [lra | now apply isDouble_max]].
  eapply Forall_impl; [|exact Hb]. cbv beta. intros a [Ha1 Ha2]. split; lra.
Qed.

Lemma enqueue_finish_kept d s :
  0 <= d -> scheduleKept s -> scheduleKept (enqueue_finish d s).
Proof.
  intros Hd (Hn & Hb & H0 & HD). unfold scheduleKept.
  cbn [enqueue_finish sourcesRef nextStartTimeRef].
  destruct (add_duration (nextStartTimeRef s) d H0 HD Hd) as (A1 & A2 & A3).
  split; [|split; [|split; [lra | exact A2]]].
  - apply overlapWithinRounding_snoc; [exact Hn|].
    cbn [createBufferSource when].
    eapply Forall_impl; [|exact Hb]. cbv beta. intros a [_ Ha]. exact Ha.
  - apply Forall_app. split.
    + eapply Forall_impl; [|exact Hb]. cbv beta. intros a [Ha1 Ha2].
      split; lra.
    + constructor; [|constructor]. cbn [createBufferSource when duration].
      split; [exact H0 | exact A3].
Qed.

Lemma onended_kept n s : scheduleKept s -> scheduleKept (onended n s).
Proof.
  intros (Hn & Hb & H0 & HD). unfold scheduleKept.
  cbn [onended sourcesRef nextStartTimeRef].
  split; [now apply overlapWithinRounding_filter|].
  split; [now apply Forall_filter|]. split; assumption.
Qed.

Lemma emptied_kept (s s' : State) :
  sourcesRef s' = [] ->
  nextStartTimeRef s' = nextStartTimeRef s \/ nextStartTimeRef s' = 0 ->
  scheduleKept s -> scheduleKept s'.
Proof.
  intros E N (_ & _ & H0 & HD). unfold scheduleKept. rewrite E.
  split; [exact I|]. split; [constructor|].
  destruct N as [-> | ->]; [now split|].
  split; [lra | exact isDouble_zero].
Qed.

Lemma framed_kept (s s' : State) :
  sourcesRef s' = sourcesRef s ->
  nextStartTimeRef s' = nextStartTimeRef s ->
  scheduleKept s -> scheduleKept s'.
Proof. unfold scheduleKept. now intros -> ->. Qed.

Lemma onParts_kept env parts :
  forall s,
    JS.isDouble (currentTime env) ->
    Forall (fun d => 0 <= d) (partDurations parts) ->
    scheduleKept s ->
    match onParts env parts s with
    | Completed s' => scheduleKept s'
    | Aborted s' => scheduleKept s'
    end.
Proof.
  unfold partDurations.
  induction parts as [|p parts IH]; intros s Hc Hd Hs; simpl.
  - exact Hs.
  - simpl in Hd. destruct (inlineData p) as [[d|]|].
    + simpl in Hd. inversion Hd; subst. apply IH; [assumption..|].
      unfold enqueue. apply enqueue_finish_kept; [assumption|].
      now apply enqueue_begin_kept.
    + now apply enqueue_begin_kept.
    + now apply IH.
Qed.

Lemma onmessage_kept token env message s :
  timed (Message token env message) ->
  scheduleKept s -> scheduleKept (onmessage token env message s).
Proof.
  intros [Hc Hd]. cbn [durationsOf] in Hd.
  destruct message as [[content|]]; unfold onmessage;
    cbn [serverContent] in *; [|auto].
  destruct content as [i o t m x];
    cbn [inputTranscription outputTranscription turnComplete modelTurn
         interrupted] in *.
  intros Hs.
  assert (H1 : scheduleKept (whenPresent i onInputTranscription s))
    by (destruct i; simpl; [eapply framed_kept; [| |exact Hs]; reflexivity
                           | exact Hs]).
  set (s1 := whenPresent i onInputTranscription s) in *.
  assert (H2 : scheduleKept (whenPresent o onOutputTranscription s1))
    by (destruct o; simpl; [eapply framed_kept; [| |exact H1]; reflexivity
                           | exact H1]).
  set (s2 := whenPresent o onOutputTranscription s1) in *.
  assert (H3 : scheduleKept (whenSet t (onTurnComplete env) s2))
    by (destruct t; simpl; [eapply framed_kept; [| |exact H2]; reflexivity
                           | exact H2]).
  set (s3 := whenSet t (onTurnComplete env) s2) in *.
  assert (F : forall s4, scheduleKept s4 ->
                         scheduleKept (whenSet x onInterrupted s4)).
  { intros s4 H4. destruct x; simpl; [|exact H4].
    eapply emptied_kept; [| |exact H4]; [reflexivity | now right]. }
  destruct m as [parts|]; [|now apply F].
  pose proof (onParts_kept env parts s3 Hc Hd H3) as H4.
  destruct (onParts env parts s3) as [s4|s4]; [now apply F | exact H4].
Qed.

Lemma handle_kept e s : timed e -> scheduleKept s -> scheduleKept (handle e s).
Proof.
  destruct e; intros Ht Hs; cbn [handle].
  - now apply onmessage_kept.
  - apply enqueue_begin_kept; [exact (proj1 Ht) | exact Hs].
  - destruct Ht as [_ Hd]. cbn [durationsOf] in Hd. inversion Hd; subst.
    now apply enqueue_finish_kept.
  - now apply onended_kept.
  - eapply framed_kept; [| |exact Hs]; reflexivity.
  - eapply emptied_kept; [| |exact Hs]; [reflexivity | now left].
  - eapply framed_kept; [| |exact Hs]; reflexivity.
  - unfold startSession_acquired.
    destruct (token =? sessionTokenRef s)%Z; cbn [snd];
      eapply framed_kept; try exact Hs; reflexivity.
  - unfold startSession_connected.
    destruct (token =? sessionTokenRef s)%Z;
      eapply framed_kept; try exact Hs; reflexivity.
Qed.

Lemma initial_kept : scheduleKept initial.
Proof.
  unfold scheduleKept; simpl. split; [exact I|]. split; [constructor|].
  split; [lra | exact isDouble_zero].
Qed.

End Schedule.

(** X8. The schedule asked of [start] holds together in every state
    the component can reach, whatever the interleaving of messages,
    decoders that return or throw, interruptions, stops and ended
    sources: the intervals from each live source's start time to that
    time plus its duration overlap by no more than the rounding of one
    addition, half a unit in the last place; none starts before time
    zero; each ends, within that rounding, by the next start time. The
    clock readings are doubles, the durations are not negative and no
    sum overflows. The times are those passed to [start], not those at
    which a source is heard: one asked for a time already past sounds
    at once. *)
Theorem run_scheduleKept :
  forall events,
    Forall timed events ->
    finiteRun events initial ->
    scheduleKept (run events initial).
Proof.
  intros events Ht _. generalize initial initial_kept.
  unfold run. induction events as [|e events IH]; intros s Hs; simpl.
  - exact Hs.
  - inversion Ht; subst. apply IH; [assumption|].
    now apply handle_kept.
Qed.

(** Two chunks whose decoding is interleaved with an interruption, and
    a part that does not decode. *)
Lemma run_scheduleKept_witness :
  let env := {| dateNow := 0; dateNowAgain := 0; currentTime := 2 |} in
  let failing :=
    {| serverContent := Some {| inputTranscription := None;
                                outputTranscription := None;
                                turnComplete := false;
                                modelTurn := Some [{| inlineData := Some Thrown |}];
                                interrupted := true |} |} in
  scheduleKept
    (run [Message 1 env (audioChunk (1 # 2)); DecodeBegin env;
          Message 1 env interruption; DecodeEnd (1 # 4);
          Message 1 env failing;
          Message 1 env (audioChunk (1 # 4))] initial).
Proof.
  cbv zeta. apply run_scheduleKept.
  - repeat constructor; vm_compute; (reflexivity || discriminate).
  - vm_compute. repeat split; discriminate.
Defined.

(** X9. In every reachable state: [stop()] has been called at most once
    on any source; no live source has been stopped; the live sources
    are distinct and each was started. *)
Theorem sources_stopped_once :
  forall events,
    let s := run events initial in
    NoDup (halted s)
    /\ NoDup (map node (sourcesRef s))
    /\ (forall src, In src (sourcesRef s) ->
                    ~ In (node src) (halted s) /\ In src (started s)).
Proof.
  intros events. cbv zeta.
  destruct (run_booked events) as (Hn & _ & Hi & _).
  split; [now apply NoDup_app_remove_r in Hn|].
  split; [now apply NoDup_app_remove_l in Hn|].
  intros src Hsrc. split; [|now apply Hi].
  intros Hh. apply in_split in Hh. destruct Hh as (h1 & h2 & Hh).
  rewrite Hh, <- app_assoc in Hn. simpl in Hn.
  apply NoDup_remove_2 in Hn. apply Hn.
  apply in_app_iff. right. apply in_app_iff. right. now apply in_map.
Qed.

(* ------------------------------------------------------------------ *)
(** ** Chunks, interruptions and restated captions *)

Section Chunks.

Lemma enqueueAll_started (chunks : list (Q * Q)) :
  forall s,
    exists new,
      started (enqueueAll chunks s) = (started s ++ new)%list
      /\ Forall2 (fun chunk src =>
                    fst chunk <= when src /\ duration src = snd chunk)
           chunks new.
Proof.
  induction chunks as [|[now d] rest IH]; intros s.
  - exists []. simpl. rewrite app_nil_r. split; [reflexivity | constructor].
  - set (env := {| dateNow := 0; dateNowAgain := 0; currentTime := now |}).
    destruct (IH (enqueue env d s)) as (new & Hs & Hf).
    destruct (enqueue_started env d s) as (E1 & _ & _). cbv zeta in *.
    set (at_ := JS.Math_max (nextStartTimeRef s) (currentTime env)) in *.
    exists ({| node := List.length (started s); when := at_; duration := d |} :: new).
    simpl. fold env. rewrite Hs, E1, <- app_assoc. split; [reflexivity|].
    constructor; [|exact Hf]. simpl. split; [|reflexivity].
    unfold at_, JS.Math_max. simpl.
    destruct (Qlt_le_dec (nextStartTimeRef s) now); lra.
Qed.

(** The three blocks before the audio loop leave the sources alone. *)
Lemma text_blocks_sources env i o t s :
  let s3 := whenSet t (onTurnComplete env)
              (whenPresent o onOutputTranscription
                 (whenPresent i onInputTranscription s)) in
  started s3 = started s /\ sourcesRef s3 = sourcesRef s /\ halted s3 = halted s.
Proof. destruct i, o, t; repeat split. Qed.

Lemma onParts_sources env parts :
  forall s,
    decodes parts ->
    exists s' new,
      onParts env parts s = Completed s'
      /\ started s' = (started s ++ new)%list
      /\ sourcesRef s' = (sourcesRef s ++ new)%list
      /\ halted s' = halted s
      /\ map duration new = partDurations parts.
Proof.
  unfold partDurations.
  induction parts as [|p parts IH]; intros s Hd; simpl.
  - exists s, []. rewrite !app_nil_r. repeat split.
  - inversion Hd as [|x l Hp Hl]; subst.
    destruct (inlineData p) as [[d|]|].
    + destruct (IH (enqueue env d s) Hl) as (s' & new & H0 & H1 & H2 & H3 & H4).
      exists s', (createBufferSource d (enqueue_begin env s) :: new).
      rewrite H0, H1, H2, H3. simpl. rewrite <- !app_assoc, H4. repeat split.
    + now elim Hp.
    + exact (IH s Hl).
Qed.

(** The loop over parts that decode and then one that does not. *)
Lemma onParts_thrown env pre post :
  forall s,
    decodes pre ->
    exists s' new,
      onParts env (pre ++ {| inlineData := Some Thrown |} :: post) s
      = Aborted (enqueue_begin env s')
      /\ started s' = (started s ++ new)%list
      /\ sourcesRef s' = (sourcesRef s ++ new)%list
      /\ halted s' = halted s
      /\ map duration new = partDurations pre.
Proof.
  unfold partDurations.
  induction pre as [|p pre IH]; intros s Hd; simpl.
  - exists s, []. rewrite !app_nil_r. repeat split.
  - inversion Hd as [|x l Hp Hl]; subst.
    destruct (inlineData p) as [[d|]|].
    + destruct (IH (enqueue env d s) Hl) as (s' & new & H0 & H1 & H2 & H3 & H4).
      exists s', (createBufferSource d (enqueue_begin env s) :: new).
      rewrite H0, H1, H2, H3. simpl. rewrite <- !app_assoc, H4. repeat split.
    + now elim Hp.
    + exact (IH s Hl).
Qed.

Lemma partialUser_keeps_model token env t s :
  currentOutputText (onmessage token env (partialUser t) s) = currentOutputText s
  /\ transcriptionRef (onmessage token env (partialUser t) s) = transcriptionRef s.
Proof. split; reflexivity. Qed.

Lemma partialUsers_keep_model token env users :
  forall s,
    let s' := run (map (fun t => Message token env (partialUser t)) users) s in
    currentOutputText s' = currentOutputText s
    /\ transcriptionRef s' = transcriptionRef s.
Proof.
  induction users as [|t users IH]; intros s; cbv zeta; [split; reflexivity|].
  simpl map.
  change (run (?e :: ?l) s) with (run l (handle e s)).
  destruct (IH (handle (Message token env (partialUser t)) s)) as [H1 H2].
  rewrite H1, H2. split; reflexivity.
Qed.

Lemma last_cons {A} (l : list A) :
  forall d c, last (d :: l) c = last l d.
Proof.
  induction l as [|x l IH]; intros d c; [reflexivity|].
  change (last (d :: x :: l) c) with (last (x :: l) c).
  rewrite (IH x c), (IH x d). reflexivity.
Qed.

Lemma restated_fold deltas :
  forall current,
    restatements current deltas ->
    fold_left mergeTranscript deltas current = last deltas current.
Proof.
  induction deltas as [|d deltas IH]; intros current H; [reflexivity|].
  destruct H as [Hd Hr]. simpl fold_left. rewrite merge_restated by exact Hd.
  rewrite (IH d Hr). symmetry. apply last_cons.
Qed.

Lemma partialUsers_fold token env deltas :
  forall s,
    activeUserText s = currentInputText s ->
    let s' := run (map (fun t => Message token env (partialUser t)) deltas) s in
    currentInputText s' = fold_left mergeTranscript deltas (currentInputText s)
    /\ activeUserText s' = currentInputText s'.
Proof.
  induction deltas as [|d deltas IH]; intros s Hs; cbv zeta;
    [split; [reflexivity | exact Hs]|].
  simpl map.
  change (run (?e :: ?l) s) with (run l (handle e s)).
  destruct (IH (handle (Message token env (partialUser d)) s) eq_refl)
    as (H1 & H2).
  split; [exact H1 | exact H2].
Qed.

End Chunks.

(** X10. No source is ever scheduled in the past: each chunk of a run
    of chunks is started no earlier than the clock read when its turn
    came, and the sources carry the chunks' durations in order. *)
Theorem never_scheduled_in_the_past :
  forall chunks s,
    Forall2 (fun chunk src => fst chunk <= when src /\ duration src = snd chunk)
      chunks (newSources s (enqueueAll chunks s)).
Proof.
  intros chunks s. destruct (enqueueAll_started chunks s) as (new & Hs & Hf).
  unfold newSources. rewrite Hs, skipn_length_app. exact Hf.
Qed.

(** X11. What the model was saying when it was interrupted is never
    committed: after an interruption, whatever the user goes on to say,
    the next turn-complete appends at most the user's item and nothing
    of the model's; the user's pending text is untouched by the
    interruption. *)
Theorem interrupted_utterance_is_dropped :
  forall token env users s,
    let s1 := onmessage token env interruption s in
    let s2 := run (map (fun t => Message token env (partialUser t)) users) s1 in
    let s3 := onmessage token env turnDone s2 in
    currentInputText s1 = currentInputText s
    /\ exists new,
         transcriptionRef s3 = (transcriptionRef s ++ new)%list
         /\ (List.length new <= 1)%nat
         /\ Forall (fun item => speaker item = user) new.
Proof.
  intros token env users s. cbv zeta. split; [reflexivity|].
  set (s1 := onmessage token env interruption s).
  destruct (partialUsers_keep_model token env users s1) as [H1 H2].
  cbv zeta in H1, H2.
  set (s2 := run (map (fun t => Message token env (partialUser t)) users) s1) in *.
  rewrite onmessage_turnDone.
  destruct (onTurnComplete_log env s2) as (E & _). cbv zeta in E.
  rewrite E, H2, H1. change (currentOutputText s1) with "".
  change (transcriptionRef s1) with (transcriptionRef s).
  eexists. split; [reflexivity|].
  unfold commits.
  destruct (isDuplicateTurn (JS.trim (currentInputText s2)) (JS.trim "") s2);
    [split; [simpl; lia | constructor]|].
  change (JS.truthy (JS.trim "")) with false. rewrite app_nil_r.
  destruct (JS.truthy (JS.trim (currentInputText s2)));
    (split; [simpl; lia | repeat constructor]).
Qed.

(** X12. A caption that the service restates in full, each time with
    more text: the pending text and the caption shown are the latest
    restatement. *)
Theorem restatements_keep_the_latest :
  forall token env deltas s,
    activeUserText s = currentInputText s ->
    restatements (currentInputText s) deltas ->
    let s' := run (map (fun t => Message token env (partialUser t)) deltas) s in
    fold_left mergeTranscript deltas (currentInputText s)
    = last deltas (currentInputText s)
    /\ currentInputText s' = last deltas (currentInputText s)
    /\ activeUserText s' = last deltas (currentInputText s).
Proof.
  intros token env deltas s Hs Hr. cbv zeta.
  destruct (partialUsers_fold token env deltas s Hs) as (H1 & H2).
  cbv zeta in H1, H2. pose proof (restated_fold deltas _ Hr) as F.
  split; [exact F|]. rewrite H2, H1. split; exact F.
Qed.

(** "He", "Hello", "Hello wor", "Hello world". *)
Lemma restatements_keep_the_latest_witness :
  let env := {| dateNow := 0; dateNowAgain := 0; currentTime := 0 |} in
  currentInputText
    (run (map (fun t => Message 1 env (partialUser t))
            ["He"; "Hello"; "Hello wor"; "Hello world"]) initial)
  = "Hello world".
Proof.
  cbv zeta.
  assert (R : restatements (currentInputText initial)
                ["He"; "Hello"; "Hello wor"; "Hello world"]).
  { simpl. repeat split.
    - now exists "He".
    - now exists "llo".
    - now exists " wor".
    - now exists "ld". }
  exact (proj1 (proj2 (restatements_keep_the_latest 1
                         {| dateNow := 0; dateNowAgain := 0; currentTime := 0 |} _ initial
                         eq_refl R))).
Defined.

(** X13. Audio that comes in the same message as an interruption is
    silenced with the rest, when every part decodes: whatever else the
    message carries, after it the live set is empty, the next start
    time is zero, the speaking flag is down, and every source the
    message started has been stopped. When the decoder throws on a
    part, the handler ends there and the interruption is not acted on:
    the speaking flag is up, nothing has been stopped, and the sources
    of the parts before are in the live set with those that were. *)
Theorem audio_with_interruption_is_silenced :
  forall token env i o t parts s,
    let message :=
      {| serverContent := Some {| inputTranscription := i;
                                  outputTranscription := o;
                                  turnComplete := t;
                                  modelTurn := Some parts;
                                  interrupted := true |} |} in
    let s' := onmessage token env message s in
    (decodes parts ->
     sourcesRef s' = []
     /\ nextStartTimeRef s' = 0
     /\ isModelSpeaking s' = false
     /\ map duration (newSources s s') = partDurations parts
     /\ (forall src, In src (newSources s s') -> In (node src) (halted s')))
    /\
    (forall pre post,
        parts = (pre ++ {| inlineData := Some Thrown |} :: post)%list ->
        decodes pre ->
        isModelSpeaking s' = true
        /\ halted s' = halted s
        /\ sourcesRef s' = (sourcesRef s ++ newSources s s')%list
        /\ map duration (newSources s s') = partDurations pre).
Proof.
  intros token env i o t parts s. cbv zeta.
  unfold onmessage; cbn [serverContent inputTranscription outputTranscription
                           turnComplete modelTurn interrupted].
  destruct (text_blocks_sources env i o t s) as (T1 & T2 & T3). cbv zeta in *.
  set (s3 := whenSet t (onTurnComplete env)
               (whenPresent o onOutputTranscription
                  (whenPresent i onInputTranscription s))) in *.
  split.
  - intros Hd.
    destruct (onParts_sources env parts s3 Hd) as (s4 & new & P0 & P1 & P2 & P3 & P4).
    rewrite P0.
    change (whenSet true onInterrupted s4) with (onInterrupted s4).
    cbn [sourcesRef nextStartTimeRef isModelSpeaking onInterrupted started halted].
    split; [reflexivity|]. split; [reflexivity|]. split; [reflexivity|].
    assert (N : newSources s (onInterrupted s4) = new).
    { unfold newSources. cbn [started onInterrupted].
      rewrite P1, T1. apply skipn_length_app. }
    rewrite N. split; [exact P4|].
    intros src Hsrc. rewrite P2. apply in_app_iff. right.
    rewrite map_app. apply in_app_iff. right. now apply in_map.
  - intros pre post -> Hd.
    destruct (onParts_thrown env pre post s3 Hd) as (s4 & new & P0 & P1 & P2 & P3 & P4).
    rewrite P0.
    cbn [sourcesRef isModelSpeaking enqueue_begin started halted].
    assert (N : newSources s (enqueue_begin env s4) = new).
    { unfold newSources. cbn [started enqueue_begin].
      rewrite P1, T1. apply skipn_length_app. }
    rewrite N. split; [reflexivity|]. split; [congruence|].
    split; [congruence | exact P4].
Qed.

(** Two chunks and an interruption in one message; then the same with
    a first chunk that does not decode. *)
Lemma audio_with_interruption_is_silenced_witness :
  let env := {| dateNow := 0; dateNowAgain := 0; currentTime := 2 |} in
  let both parts :=
    {| serverContent := Some {| inputTranscription := None;
                                outputTranscription := None;
                                turnComplete := false;
                                modelTurn := Some parts;
                                interrupted := true |} |} in
  let good := [{| inlineData := Some (Buffer (1 # 2)) |};
               {| inlineData := Some (Buffer (1 # 4)) |}] in
  let bad := [{| inlineData := Some Thrown |};
              {| inlineData := Some (Buffer (1 # 4)) |}] in
  let before := onmessage 1 env (audioChunk (1 # 2)) initial in
  (sourcesRef (onmessage 1 env (both good) before) = []
   /\ halted (onmessage 1 env (both good) before) = [0; 1; 2]%nat)
  /\ (isModelSpeaking (onmessage 1 env (both bad) before) = true
      /\ halted (onmessage 1 env (both bad) before) = []
      /\ List.length (sourcesRef (onmessage 1 env (both bad) before)) = 1%nat).
Proof.
  cbv zeta.
  set (env := {| dateNow := 0; dateNowAgain := 0; currentTime := 2 |}).
  set (before := onmessage 1 env (audioChunk (1 # 2)) initial).
  split.
  - assert (G : decodes [{| inlineData := Some (Buffer (1 # 2)) |};
                         {| inlineData := Some (Buffer (1 # 4)) |}])
      by (repeat constructor; discriminate).
    destruct (proj1 (audio_with_interruption_is_silenced 1 env None None false
                       _ before) G) as (H1 & _).
    split; [exact H1 | reflexivity].
  - destruct (proj2 (audio_with_interruption_is_silenced 1 env None None false
                       [{| inlineData := Some Thrown |};
                        {| inlineData := Some (Buffer (1 # 4)) |}] before)
                    [] [{| inlineData := Some (Buffer (1 # 4)) |}]
                    eq_refl (Forall_nil _)) as (H1 & H2 & _).
    split; [exact H1|]. split; [exact H2 | reflexivity].
Defined.

(* ------------------------------------------------------------------ *)
(** ** More on the capture of samples *)

Section Samples.

Lemma truncate_scaled (x : Q) (lo hi : Z) :
  (lo <= 0)%Z -> (0 < hi)%Z ->
  inject_Z lo <= x * 32768 -> x * 32768 < inject_Z hi ->
  (lo <= JS.truncate (x * 32768) < hi)%Z.
Proof.
  intros Hlo Hhi H1 H2. destruct x as [a b].
  unfold Qle, Qlt, JS.truncate in *. simpl in *.
  apply quot_bounds; lia.
Qed.

Lemma pcm16_small (x : Q) :
  -1 <= x -> x < 1 -> pcm16 x = JS.truncate (x * 32768).
Proof.
  intros H1 H2. unfold pcm16. apply ToInt16_small.
  assert (K : (-32768 <= JS.truncate (x * 32768) < 32768)%Z).
  { apply truncate_scaled; try lia.
    - change (inject_Z (-32768)) with (-32768 # 1). lra.
    - change (inject_Z 32768) with (32768 # 1). lra. }
  lia.
Qed.

(** Truncation is the floor of what is not negative and the ceiling of
    what is. *)
Lemma truncate_floor (q : Q) : (0 <= Qnum q)%Z -> JS.truncate q = Qfloor q.
Proof.
  destruct q as [a b]. simpl. intros H. unfold JS.truncate. simpl.
  apply Z.quot_div_nonneg; lia.
Qed.

Lemma truncate_ceiling (q : Q) : (Qnum q <= 0)%Z -> JS.truncate q = Qceiling q.
Proof.
  destruct q as [a b]. simpl. intros H.
  unfold JS.truncate, Qceiling, Qfloor. simpl.
  rewrite <- (Z.opp_involutive a) at 1.
  rewrite Z.quot_opp_l by lia. f_equal. apply Z.quot_div_nonneg; lia.
Qed.

Lemma truncate_monotone (p q : Q) : p <= q -> (JS.truncate p <= JS.truncate q)%Z.
Proof.
  intros H.
  destruct (Z_lt_le_dec (Qnum p) 0) as [Hp|Hp];
    destruct (Z_lt_le_dec (Qnum q) 0) as [Hq|Hq].
  - rewrite !truncate_ceiling by lia. now apply Qceiling_resp_le.
  - rewrite truncate_ceiling by lia. rewrite (truncate_floor q) by lia.
    assert (A : (Qceiling p <= 0)%Z).
    { change 0%Z with (Qceiling 0). apply Qceiling_resp_le.
      destruct p as [a b]. unfold Qle. simpl in *. lia. }
    assert (B : (0 <= Qfloor q)%Z).
    { change 0%Z with (Qfloor 0). apply Qfloor_resp_le.
      destruct q as [a b]. unfold Qle. simpl in *. lia. }
    lia.
  - exfalso. destruct p as [a b], q as [c d]. unfold Qle in H. simpl in *. nia.
  - rewrite !truncate_floor by lia. now apply Qfloor_resp_le.
Qed.

Lemma truncate_opp (q : Q) : JS.truncate (- q) = (- JS.truncate q)%Z.
Proof.
  destruct q as [a b]. unfold JS.truncate. simpl. apply Z.quot_opp_l. lia.
Qed.

End Samples.

(** X14. Whatever the samples of a block, in range or not, the array
    handed to the encoder has one element per sample and each element
    is a signed 16-bit value. *)
Theorem capture_block_is_pcm16 :
  forall inputData,
    List.length (onaudioprocess inputData) = List.length inputData
    /\ Forall (fun v => (-32768 <= v <= 32767)%Z) (onaudioprocess inputData).
Proof.
  intros inputData. unfold onaudioprocess. split; [apply length_map|].
  apply Forall_forall. intros v Hv. apply in_map_iff in Hv.
  destruct Hv as (x & <- & _). apply ToInt16_range.
Qed.

(** X15. On samples from -1 up to but not including 1 the conversion
    keeps the order of samples, and it sends opposite samples (other
    than -1) to opposite values. *)
Theorem pcm16_keeps_order_and_sign :
  (forall x y, -1 <= x -> x <= y -> y < 1 -> (pcm16 x <= pcm16 y)%Z)
  /\ (forall x, -1 < x -> x < 1 -> pcm16 (- x) = (- pcm16 x)%Z).
Proof.
  split.
  - intros x y H1 H2 H3.
    rewrite (pcm16_small x) by lra. rewrite (pcm16_small y) by lra.
    apply truncate_monotone. lra.
  - intros x H1 H2.
    rewrite (pcm16_small x) by lra. rewrite (pcm16_small (- x)) by lra.
    rewrite <- truncate_opp. destruct x as [a b].
    unfold JS.truncate. simpl. f_equal. lia.
Qed.

(** Samples -0.3, 0.3 and 0.5. *)
Lemma pcm16_keeps_order_and_sign_witness :
  (pcm16 (3 # 10) <= pcm16 (1 # 2))%Z
  /\ pcm16 (- (3 # 10)) = (- pcm16 (3 # 10))%Z.
Proof.
  split.
  - apply (proj1 pcm16_keeps_order_and_sign); vm_compute;
      [discriminate | discriminate | reflexivity].
  - apply (proj2 pcm16_keeps_order_and_sign); vm_compute; reflexivity.
Defined.

(** X16. A sample from 1 up to but not including 2 is not clipped: it
    comes out negative, as its scaled and truncated value less 65536. *)
Theorem pcm16_wraps_above_one :
  forall x,
    1 <= x -> x < 2 ->
    pcm16 x = (JS.truncate (x * 32768) - 65536)%Z
    /\ (-32768 <= pcm16 x < 0)%Z.
Proof.
  intros x H1 H2.
  assert (K : (0 <= JS.truncate (x * 32768) < 65536)%Z).
  { apply truncate_scaled; try lia.
    - change (inject_Z 0) with 0. lra.
    - change (inject_Z 65536) with (65536 # 1). lra. }
  assert (L : (JS.truncate (1 * 32768) <= JS.truncate (x * 32768))%Z)
    by (apply truncate_monotone; lra).
  change (JS.truncate (1 * 32768)) with 32768%Z in L.
  assert (E : pcm16 x = (JS.truncate (x * 32768) - 65536)%Z).
  { unfold pcm16, JS.ToInt16. cbv zeta.
    rewrite Z.mod_small by lia.
    destruct (32768 <=? JS.truncate (x * 32768))%Z eqn:C;
      [reflexivity | apply Z.leb_gt in C; lia]. }
  rewrite E. split; [reflexivity | lia].
Qed.

(** Samples 1, 1.25 and 1.5. *)
Lemma pcm16_wraps_above_one_witness :
  pcm16 1 = (-32768)%Z /\ pcm16 (5 # 4) = (-24576)%Z /\ pcm16 (3 # 2) = (-16384)%Z.
Proof.
  split; [|split].
  - apply (pcm16_wraps_above_one 1); vm_compute; [discriminate | reflexivity].
  - apply (pcm16_wraps_above_one (5 # 4)); vm_compute; [discriminate | reflexivity].
  - apply (pcm16_wraps_above_one (3 # 2)); vm_compute; [discriminate | reflexivity].
Defined.

(* ================================================================== *)
(** * The application shell and the setup form *)
(* ================================================================== *)

Section Shell.

(** Out of the setup screen there is a configuration. *)
Lemma dispatch_configured a app :
  (App.state app = SETUP \/ App.config app <> None) ->
  (App.state (App.dispatch a app) = SETUP
   \/ App.config (App.dispatch a app) <> None).
Proof.
  intros H. destruct app as [st [c|] h], a; simpl in *;
    unfold App.dispatch, App.shows, App.rendered; simpl;
    destruct st; simpl; try (now left); try (right; discriminate);
    destruct H as [H|H]; try discriminate; try (now elim H).
Qed.

Lemma configured_one_screen app :
  (App.state app = SETUP \/ App.config app <> None) ->
  exists screen, App.rendered app = [screen].
Proof.
  destruct app as [st [c|] h]; simpl; intros H; unfold App.rendered; simpl.
  - destruct st; simpl; eexists; reflexivity.
  - destruct H as [H|H]; [subst; simpl; eexists; reflexivity | now elim H].
Qed.

Lemma submit_keeps_selection form :
  SetupForm.file (fst (SetupForm.handleSubmit form)) = SetupForm.file form
  /\ SetupForm.selectedPreset (fst (SetupForm.handleSubmit form))
     = SetupForm.selectedPreset form.
Proof.
  destruct form as [r f sel l m]. unfold SetupForm.handleSubmit. simpl.
  destruct (negb (SetupForm.isGranted m)); [split; reflexivity|].
  destruct f as [f|].
  - destruct (File.text f); split; reflexivity.
  - destruct sel as [sel|]; [|split; reflexivity].
    destruct (JS.truthy sel); split; reflexivity.
Qed.

Lemma dispatch_selectionSound a form :
  selectionSound form -> selectionSound (SetupForm.dispatch a form).
Proof.
  intros [H1 H2]. unfold selectionSound.
  destruct a; cbn [SetupForm.dispatch].
  - split; assumption.
  - destruct (nth_error SetupForm.PRESET_FILES index) as [p|] eqn:E;
      [|split; assumption].
    cbn [SetupForm.file SetupForm.selectedPreset].
    split; [now left|]. intros sel Hsel. injection Hsel as <-.
    exists p. split; [|reflexivity]. eapply nth_error_In. exact E.
  - cbn [SetupForm.file SetupForm.selectedPreset]. split; [now right | discriminate].
  - split; assumption.
  - split; assumption.
  - destruct (submit_keeps_selection form) as [F S]. rewrite F, S.
    split; assumption.
Qed.

Lemma run_selectionSound actions :
  forall form, selectionSound form -> selectionSound (SetupForm.run actions form).
Proof.
  unfold SetupForm.run. induction actions as [|a actions IH]; intros form H;
    [exact H|].
  simpl. apply IH. now apply dispatch_selectionSound.
Qed.

Lemma initial_selectionSound : selectionSound SetupForm.initial.
Proof. split; [now left | discriminate]. Qed.

(** Looking a library preset up by its name finds it. *)
Lemma find_preset p :
  In p SetupForm.PRESET_FILES ->
  find (fun q => String.eqb (SetupForm.name q) (SetupForm.name p))
    SetupForm.PRESET_FILES = Some p
  /\ JS.truthy (SetupForm.name p) = true
  /\ SetupForm.orEmpty (Some (SetupForm.content p)) = SetupForm.content p
  /\ SetupForm.orEmpty (Some (SetupForm.name p)) = SetupForm.name p.
Proof.
  intros H. unfold SetupForm.PRESET_FILES in H. simpl in H.
  destruct H as [<-|[<-|[<-|[]]]]; repeat split; reflexivity.
Qed.

End Shell.

(** X17. Whatever the children call back while they are shown, the
    shell shows exactly one screen, and once out of the setup screen it
    has a configuration. *)
Theorem app_shows_one_screen :
  forall actions,
    let app := App.run actions App.initial in
    (exists screen, App.rendered app = [screen])
    /\ (App.state app = SETUP \/ App.config app <> None).
Proof.
  intros actions. cbv zeta.
  assert (K : forall app,
             (App.state app = SETUP \/ App.config app <> None) ->
             App.state (App.run actions app) = SETUP
             \/ App.config (App.run actions app) <> None).
  { unfold App.run. induction actions as [|a actions IH]; intros app H;
      [exact H|].
    simpl. apply IH. now apply dispatch_configured. }
  pose proof (K App.initial (or_introl eq_refl)) as H.
  split; [now apply configured_one_screen | exact H].
Qed.

(** X18. Whatever is done to the form, at most one of an uploaded file
    and a preset is chosen, and a chosen preset is the name of a
    document of the library. *)
Theorem form_selection_is_sound :
  forall actions,
    let form := SetupForm.run actions SetupForm.initial in
    (SetupForm.file form = None \/ SetupForm.selectedPreset form = None)
    /\ (forall selected,
           SetupForm.selectedPreset form = Some selected ->
           exists p, In p SetupForm.PRESET_FILES /\ SetupForm.name p = selected).
Proof.
  intros actions. cbv zeta.
  exact (run_selectionSound actions SetupForm.initial initial_selectionSound).
Qed.

(** X19. A submit starts a session only with the microphone granted,
    and with the role as typed and the document as chosen: the text
    read from the uploaded file under the file's name, or else the
    content of the chosen library document under its name. *)
Theorem submit_starts_with_chosen_document :
  forall actions config,
    let form := SetupForm.run actions SetupForm.initial in
    In (SetupForm.Start config) (snd (SetupForm.handleSubmit form)) ->
    SetupForm.micPermission form = SetupForm.granted
    /\ snd (SetupForm.handleSubmit form) = [SetupForm.Start config]
    /\ SetupForm.loading (fst (SetupForm.handleSubmit form)) = false
    /\ role config = SetupForm.role form
    /\ ((exists f, SetupForm.file form = Some f
                   /\ File.text f = Some (contextText config)
                   /\ fileName config = File.name f)
        \/ (exists p, SetupForm.file form = None
                      /\ In p SetupForm.PRESET_FILES
                      /\ SetupForm.selectedPreset form = Some (SetupForm.name p)
                      /\ contextText config = SetupForm.content p
                      /\ fileName config = SetupForm.name p)).
Proof.
  intros actions config. cbv zeta.
  pose proof (run_selectionSound actions SetupForm.initial
                initial_selectionSound) as [_ S].
  remember (SetupForm.run actions SetupForm.initial) as form eqn:Ef. clear Ef.
  destruct form as [r f sel l m]. unfold SetupForm.handleSubmit.
  cbn [SetupForm.micPermission SetupForm.file SetupForm.selectedPreset
       SetupForm.role] in *.
  destruct m; cbn [SetupForm.isGranted negb];
    try (intros [H|[]]; discriminate).
  destruct f as [f|].
  - destruct (File.text f) as [read|] eqn:R; cbn [snd fst].
    + intros [H|[]]. injection H as <-. cbn.
      repeat (split; [reflexivity|]). left. exists f.
      split; [reflexivity|]. split; [exact R | reflexivity].
    + intros [H|[H|[]]]; discriminate.
  - destruct sel as [sel|]; [|intros [H|[]]; discriminate].
    destruct (S sel eq_refl) as (p & Hp & <-).
    destruct (find_preset p Hp) as (F & T & C & N).
    rewrite T, F. cbn [snd fst option_map]. rewrite C, N.
    intros [H|[]]. injection H as <-. cbn.
    repeat (split; [reflexivity|]). right. exists p. repeat split. exact Hp.
Qed.

(** The second library document chosen and the microphone granted. *)
Lemma submit_starts_with_chosen_document_witness :
  let form := SetupForm.run [SetupForm.RequestMic true; SetupForm.ClickPreset 1]
                SetupForm.initial in
  snd (SetupForm.handleSubmit form)
  = [SetupForm.Start
       {| role := SetupForm.role SetupForm.initial;
          contextText := "The Gemini Live API is a low-latency multimodal tool. It supports PCM 16kHz audio input and 24kHz audio output. It is best used for real-time interaction.";
          fileName := "Technical Sales Guide.txt" |}]
  /\ SetupForm.micPermission form = SetupForm.granted.
Proof.
  cbv zeta.
  destruct (submit_starts_with_chosen_document
              [SetupForm.RequestMic true; SetupForm.ClickPreset 1]
              {| role := SetupForm.role SetupForm.initial;
                 contextText := "The Gemini Live API is a low-latency multimodal tool. It supports PCM 16kHz audio input and 24kHz audio output. It is best used for real-time interaction.";
                 fileName := "Technical Sales Guide.txt" |}
              (or_introl eq_refl)) as (H1 & H2 & _).
  split; [exact H2 | exact H1].
Defined.

(* ================================================================== *)
(** * More on turns and on ended sources *)
(* ================================================================== *)

Section Turns.

(** The state a delivery of the turn [u], [a] leaves behind. *)
Lemma wholeTurn_settles token env u a s :
  currentInputText s = "" ->
  currentOutputText s = "" ->
  let s' := onmessage token env (wholeTurn u a) s in
  currentInputText s' = ""
  /\ currentOutputText s' = ""
  /\ lastCommittedInputRef s' = JS.trim u
  /\ lastCommittedOutputRef s' = JS.trim a.
Proof.
  intros Hu Ha. cbv zeta. rewrite onmessage_wholeTurn.
  set (p := onOutputTranscription a (onInputTranscription u s)).
  assert (Pu : currentInputText p = u)
    by (simpl; rewrite Hu; apply merge_from_empty).
  assert (Pa : currentOutputText p = a)
    by (simpl; rewrite Ha; apply merge_from_empty).
  destruct (onTurnComplete_log env p) as (_ & _ & H3 & H4).
  cbv zeta in H3, H4. rewrite Pu, Pa in *.
  split; [reflexivity|]. split; [reflexivity|].
  rewrite H3, H4.
  destruct (isDuplicateTurn (JS.trim u) (JS.trim a) p) eqn:E.
  - apply isDuplicateTurn_true in E. destruct E as [E1 E2]. now rewrite <- E1, <- E2.
  - split; reflexivity.
Qed.

Lemma wholeTurn_again token env u a s :
  currentInputText s = "" ->
  currentOutputText s = "" ->
  lastCommittedInputRef s = JS.trim u ->
  lastCommittedOutputRef s = JS.trim a ->
  transcriptionRef (onmessage token env (wholeTurn u a) s) = transcriptionRef s.
Proof.
  intros Hu Ha Lu La. rewrite onmessage_wholeTurn.
  set (p := onOutputTranscription a (onInputTranscription u s)).
  assert (Pu : currentInputText p = u)
    by (simpl; rewrite Hu; apply merge_from_empty).
  assert (Pa : currentOutputText p = a)
    by (simpl; rewrite Ha; apply merge_from_empty).
  destruct (onTurnComplete_log env p) as (H1 & _). cbv zeta in H1.
  rewrite Pu, Pa in H1.
  assert (D : isDuplicateTurn (JS.trim u) (JS.trim a) p = true).
  { apply isDuplicateTurn_true. split; symmetry; assumption. }
  rewrite D in H1. unfold commits in H1. rewrite app_nil_r in H1. exact H1.
Qed.

Lemma wholeTurn_repeated token env u a n :
  forall s,
    currentInputText s = "" ->
    currentOutputText s = "" ->
    lastCommittedInputRef s = JS.trim u ->
    lastCommittedOutputRef s = JS.trim a ->
    transcriptionRef (run (repeat (Message token env (wholeTurn u a)) n) s)
    = transcriptionRef s.
Proof.
  induction n as [|n IH]; intros s Hu Ha Lu La; [reflexivity|].
  simpl repeat.
  change (run (?e :: ?l) s) with (run l (handle e s)). cbn [handle].
  destruct (wholeTurn_settles token env u a s Hu Ha) as (S1 & S2 & S3 & S4).
  cbv zeta in *. rewrite IH by assumption.
  now apply wholeTurn_again.
Qed.

Lemma filter_all {A} (f : A -> bool) (l : list A) :
  (forall x, In x l -> f x = true) -> filter f l = l.
Proof.
  induction l as [|x l IH]; intros H; simpl; [reflexivity|].
  rewrite (H x (or_introl eq_refl)). f_equal. apply IH.
  intros y Hy. apply H. now right.
Qed.

Lemma State_eta (s : State) :
  s = {| isActive := isActive s;
         transcription := transcription s;
         activeUserText := activeUserText s;
         activeModelText := activeModelText s;
         isModelSpeaking := isModelSpeaking s;
         audioContextInRef := audioContextInRef s;
         audioContextOutRef := audioContextOutRef s;
         sessionRef := sessionRef s;
         transcriptionRef := transcriptionRef s;
         sourcesRef := sourcesRef s;
         nextStartTimeRef := nextStartTimeRef s;
         streamRef := streamRef s;
         currentInputText := currentInputText s;
         currentOutputText := currentOutputText s;
         lastCommittedInputRef := lastCommittedInputRef s;
         lastCommittedOutputRef := lastCommittedOutputRef s;
         sessionTokenRef := sessionTokenRef s;
         started := started s;
         halted := halted s;
         closed := closed s |}.
Proof. destruct s; reflexivity. Qed.

End Turns.

(** X20. A turn that differs from the last committed pair in either
    text is committed in full: the user's item, if it has text, stamped
    with the clock as read for it, then the model's, if it has text,
    stamped with the clock as read again for it; the pair becomes the
    last committed one and the pending texts are emptied. *)
Theorem changed_turn_is_committed :
  forall token env s,
    JS.trim (currentInputText s) <> lastCommittedInputRef s
    \/ JS.trim (currentOutputText s) <> lastCommittedOutputRef s ->
    let u := JS.trim (currentInputText s) in
    let a := JS.trim (currentOutputText s) in
    let s' := onmessage token env turnDone s in
    transcriptionRef s'
    = (transcriptionRef s
       ++ (if JS.truthy u
           then [{| speaker := user; text := u; timestamp := dateNow env |}]
           else [])
       ++ (if JS.truthy a
           then [{| speaker := model; text := a;
                    timestamp := dateNowAgain env |}]
           else []))%list
    /\ lastCommittedInputRef s' = u
    /\ lastCommittedOutputRef s' = a
    /\ currentInputText s' = ""
    /\ currentOutputText s' = "".
Proof.
  intros token env s H. cbv zeta. rewrite onmessage_turnDone.
  destruct (onTurnComplete_log env s) as (H1 & _ & H3 & H4). cbv zeta in *.
  apply isDuplicateTurn_false in H. rewrite H in *.
  split; [exact H1|]. split; [exact H3|]. split; [exact H4|].
  split; reflexivity.
Qed.

(** The user says something new and the model repeats itself; the
    clock moves on by a millisecond between the two items of a turn. *)
Lemma changed_turn_is_committed_witness :
  let env := {| dateNow := 1700; dateNowAgain := 1701; currentTime := 0 |} in
  let s := onmessage 1 env (partialModel "Hi")
             (onmessage 1 env (partialUser "Bye")
                (onmessage 1 env (wholeTurn "Hello" "Hi") initial)) in
  transcriptionRef (onmessage 1 env turnDone s)
  = [ {| speaker := user; text := "Hello"; timestamp := 1700 |};
      {| speaker := model; text := "Hi"; timestamp := 1701 |};
      {| speaker := user; text := "Bye"; timestamp := 1700 |};
      {| speaker := model; text := "Hi"; timestamp := 1701 |} ].
Proof.
  cbv zeta.
  set (env := {| dateNow := 1700; dateNowAgain := 1701; currentTime := 0 |}).
  set (s := onmessage 1 env (partialModel "Hi")
              (onmessage 1 env (partialUser "Bye")
                 (onmessage 1 env (wholeTurn "Hello" "Hi") initial))).
  assert (D : JS.trim (currentInputText s) <> lastCommittedInputRef s
              \/ JS.trim (currentOutputText s) <> lastCommittedOutputRef s)
    by (left; discriminate).
  exact (proj1 (changed_turn_is_committed 1 env s D)).
Defined.

(** X21. A turn that the service delivers several times in a row is
    logged by its first delivery only, however many the repeats. *)
Theorem repeated_turn_is_logged_once :
  forall token env u a n s,
    currentInputText s = "" ->
    currentOutputText s = "" ->
    let message := Message token env (wholeTurn u a) in
    transcriptionRef (run (repeat message (S n)) s)
    = transcriptionRef (run [message] s).
Proof.
  intros token env u a n s Hu Ha. cbv zeta. simpl repeat.
  change (run (?e :: ?l) s) with (run l (handle e s)).
  change (run [] ?x) with x. cbn [handle].
  destruct (wholeTurn_settles token env u a s Hu Ha) as (S1 & S2 & S3 & S4).
  cbv zeta in *. now apply wholeTurn_repeated.
Qed.

(** "Hello" / "Hi" delivered four times. *)
Lemma repeated_turn_is_logged_once_witness :
  let env := {| dateNow := 1700; dateNowAgain := 1700; currentTime := 0 |} in
  transcriptionRef (run (repeat (Message 1 env (wholeTurn "Hello" "Hi")) 4) initial)
  = [ {| speaker := user; text := "Hello"; timestamp := 1700 |};
      {| speaker := model; text := "Hi"; timestamp := 1700 |} ].
Proof.
  cbv zeta.
  exact (repeated_turn_is_logged_once 1 {| dateNow := 1700; dateNowAgain := 1700; currentTime := 0 |}
           "Hello" "Hi" 3 initial eq_refl eq_refl).
Defined.

(** X22. The ['ended'] event of a source that was stopped changes
    nothing: in every reachable state, the listener of a stopped source
    leaves the state as it is. *)
Theorem ended_after_stop_is_nothing :
  forall events n,
    In n (halted (run events initial)) ->
    onended n (run events initial) = run events initial.
Proof.
  intros events n Hn.
  destruct (run_booked events) as (Hd & _).
  set (s := run events initial) in *.
  rewrite (State_eta s) at 2. unfold onended. f_equal.
  apply filter_all. intros src Hsrc.
  apply negb_true_iff. apply Nat.eqb_neq. intros E.
  apply in_split in Hn. destruct Hn as (h1 & h2 & Hh).
  rewrite Hh, <- app_assoc in Hd. simpl in Hd.
  apply NoDup_remove_2 in Hd. apply Hd.
  apply in_app_iff. right. apply in_app_iff. right.
  rewrite <- E. now apply in_map.
Qed.

(** A chunk is started, the session is interrupted, the chunk's source
    reports its end. *)
Lemma ended_after_stop_is_nothing_witness :
  let env := {| dateNow := 0; dateNowAgain := 0; currentTime := 2 |} in
  let events := [Message 1 env (audioChunk (1 # 2)); Message 1 env interruption] in
  onended 0 (run events initial) = run events initial.
Proof.
  cbv zeta.
  apply (ended_after_stop_is_nothing
           [Message 1 {| dateNow := 0; dateNowAgain := 0; currentTime := 2 |} (audioChunk (1 # 2));
            Message 1 {| dateNow := 0; dateNowAgain := 0; currentTime := 2 |} interruption] 0%nat).
  simpl. now left.
Defined.
